(** * Week5MCMC: the Metropolis-Hastings walker [mhMCMC]

    A shallow embedding of the function [mhMCMC] of [MCMCfitting.ipynb]
    and the properties of the chain it returns.

    - Python floats are IEEE-754 binary64 values: [spec_float] with the
      operations of [SpecFloat] at precision 53 and [emax = 1024].
    - A numpy parameter vector is a [list] of floats; [p + dp] is the
      element-wise sum.  It builds a new array: the rows already appended
      to [plist] are never written again, and [dp] is written only while
      it is filled, at indices below its length.
    - [np.random] is a global generator: every draw takes the generator
      state and returns the next one.  [np.random.normal],
      [np.random.uniform] and [math.exp] belong to libraries outside the
      notebook and are parameters of the development.
    - A Python exception ends the run; the generator state reached so far
      is kept, as it is a global of the interpreter. *)

From Stdlib Require Import ZArith Bool Lia.
From Stdlib Require Import SpecFloat.
From stdpp Require Import base decidable numbers list.

(** ** Binary64 floats *)

Module F64.

Definition prec : Z := 53.
Definition emax : Z := 1024.

Definition add : spec_float -> spec_float -> spec_float := SFadd prec emax.
Definition sub : spec_float -> spec_float -> spec_float := SFsub prec emax.
Definition div : spec_float -> spec_float -> spec_float := SFdiv prec emax.

(** Python's [a < b], [a > b], [a <= b] and [a == b] on floats. *)
Definition ltb (a b : spec_float) : bool := SFltb a b.
Definition gtb (a b : spec_float) : bool := SFltb b a.
Definition leb (a b : spec_float) : bool := SFleb a b.
Definition eqb (a b : spec_float) : bool := SFeqb a b.

(** The literals [0.], [1.], [2.] and [np.infty]. *)
Definition zero : spec_float := S754_zero false.
Definition one : spec_float := S754_finite false 4503599627370496 (-52).
Definition two : spec_float := S754_finite false 4503599627370496 (-51).
Definition infty : spec_float := S754_infinity false.

Definition is_nan (x : spec_float) : bool :=
  match x with S754_nan => true | _ => false end.

(** A finite number: neither an infinity nor a NaN. *)
Definition is_finite (x : spec_float) : bool :=
  match x with
  | S754_zero _ | S754_finite _ _ _ => true
  | S754_infinity _ | S754_nan => false
  end.

(** A value that is a binary64 float: its mantissa and exponent are the
    canonical ones of the format. *)
Definition valid (x : spec_float) : bool := valid_binary prec emax x.

(** Neither a positive number nor [+inf]: zero, negative, or NaN. *)
Definition not_positive (x : spec_float) : bool :=
  match x with
  | S754_zero _ | S754_nan => true
  | S754_infinity s | S754_finite s _ _ => s
  end.

End F64.

#[global] Instance spec_float_eq_dec : EqDecision spec_float.
Proof. solve_decision. Defined.

Abbreviation float := spec_float (only parsing).

(** A parameter vector (a one-dimensional numpy array of floats). *)
Abbreviation vec := (list spec_float) (only parsing).

(** [p + dp] on numpy arrays of one length. *)
Definition vadd (p dp : vec) : vec := zip_with F64.add p dp.

(** The value of a parameter to which only [0.] is ever added: the initial
    value [x] itself, or [+0.] once a move has been made from [-0.]
    ([-0. + 0.] is [+0.]). *)
Definition pinned_value (x y : spec_float) : Prop :=
  y = x \/ (x = S754_zero true /\ y = F64.zero).

(** ** Exceptions and the generator monad *)

Inductive exn : Type :=
| IndexError
| OverflowError.

Inductive result (A : Type) : Type :=
| Ok (a : A)
| Raise (e : exn).
Arguments Ok {A} a.
Arguments Raise {A} e.

Section Walker.

(** The state of the global generator of [np.random]. *)
Variable rng : Type.

(** [np.random.normal(scale=s)], called with [s > 0] only. *)
Variable random_normal : float -> rng -> float * rng.

(** [np.random.uniform(0., 1.)]. *)
Variable random_uniform : rng -> float * rng.

(** The generator state that [np.random.seed(s)] installs. *)
Variable random_seed : Z -> rng.

(** [math.exp]; [None] is its [OverflowError]. *)
Variable math_exp : float -> option float.

(** The data arrays [xi], [yi] and [err], only handed on to [chi2func]. *)
Variable data : Type.

Definition M (A : Type) : Type := rng -> result A * rng.

Definition ret {A} (a : A) : M A := fun g => (Ok a, g).

Definition raise {A} (e : exn) : M A := fun g => (Raise e, g).

Definition bind {A B} (m : M A) (k : A -> M B) : M B :=
  fun g =>
    match m g with
    | (Ok a, g') => k a g'
    | (Raise e, g') => (Raise e, g')
    end.

Notation "'let*' x := m 'in' k" := (bind m (fun x => k))
  (at level 10, x name, m at level 100, k at level 200).

Definition normal (s : float) : M float :=
  fun g => let (d, g') := random_normal s g in (Ok d, g').

Definition uniform : M float :=
  fun g => let (u, g') := random_uniform g in (Ok u, g').

(** [np.random.seed(s)]: the state before the call is forgotten. *)
Definition seed (s : Z) : M unit :=
  fun _ => (Ok tt, random_seed s).

Definition exp (x : float) : M float :=
  match math_exp x with
  | Some r => ret r
  | None => raise OverflowError
  end.

(** [stepsize[j]] for [j >= 0]. *)
Definition getitem (l : vec) (j : nat) : M float :=
  match l !! j with
  | Some x => ret x
  | None => raise IndexError
  end.

(** ** The walker *)

(** The loop [for j in range(0,len(p))] that fills [dp]: [js] are the
    indices still to visit. *)
Fixpoint draw_loop (stepsize : vec) (js : list nat) (dp : vec) : M vec :=
  match js with
  | [] => ret dp
  | j :: js' =>
      let* s := getitem stepsize j in
      if F64.gtb s F64.zero
      then let* d := normal s in draw_loop stepsize js' (<[j:=d]> dp)
      else draw_loop stepsize js' dp
  end.

(** [dp = np.zeros(len(p))] followed by the loop over [j]. *)
Definition draw_dp (p stepsize : vec) : M vec :=
  draw_loop stepsize (seq 0 (length p)) (replicate (length p) F64.zero).

(** The [if]/[else] on the two values of [chi2func]: the next position. *)
Definition accept (xi yi err : data) (chi2func : vec -> data -> data -> data -> float)
    (p dp : vec) : M vec :=
  if F64.ltb (chi2func (vadd p dp) xi yi err) (chi2func p xi yi err)
  then ret (vadd p dp)
  else
    let* r := exp (F64.div (F64.sub (chi2func p xi yi err)
                                    (chi2func (vadd p dp) xi yi err)) F64.two) in
    let* u := uniform in
    if F64.gtb r u then ret (vadd p dp) else ret p.

(** One pass through the body of [for i in range(0,nsteps)], up to the
    assignment of [p]. *)
Definition mh_step (xi yi err : data) chi2func (stepsize p : vec) : M vec :=
  let* dp := draw_dp p stepsize in
  accept xi yi err chi2func p dp.

(** The loop over [i], with [n] passes left. *)
Fixpoint mh_loop (n : nat) (xi yi err : data) chi2func (stepsize p : vec)
    (plist : list vec) : M (list vec) :=
  match n with
  | O => ret plist
  | S n' =>
      let* p' := mh_step xi yi err chi2func stepsize p in
      mh_loop n' xi yi err chi2func stepsize p' (plist ++ [p'])
  end.

(** [range(0,nsteps)] has [Z.to_nat nsteps] elements (none when
    [nsteps <= 0]); [np.array(plist)] keeps the rows of [plist]. *)
Definition mhMCMC (xi yi err : data) chi2func (initparams stepsize : vec)
    (nsteps : Z) : M (list vec) :=
  mh_loop (Z.to_nat nsteps) xi yi err chi2func stepsize initparams [initparams].

End Walker.

Arguments ret {rng A} a _.
Arguments raise {rng A} e _.
Arguments bind {rng A B} m k _.
Arguments normal {rng} random_normal s _.
Arguments uniform {rng} random_uniform _.
Arguments seed {rng} random_seed s _.
Arguments exp {rng} math_exp x _.
Arguments getitem {rng} l j _.
Arguments draw_loop {rng} random_normal stepsize js dp _.
Arguments draw_dp {rng} random_normal p stepsize _.
Arguments accept {rng} random_uniform math_exp {data} xi yi err chi2func p dp _.
Arguments mh_step {rng} random_normal random_uniform math_exp {data}
  xi yi err chi2func stepsize p _.
Arguments mh_loop {rng} random_normal random_uniform math_exp {data}
  n xi yi err chi2func stepsize p plist _.
Arguments mhMCMC {rng} random_normal random_uniform math_exp {data}
  xi yi err chi2func initparams stepsize nsteps _.

(** Two runs, each on a generator of its own, end alike: in the same value
    or the same exception, and in generator states that correspond. *)
Definition same_outcome {rng1 rng2 A : Type} (R : rng1 -> rng2 -> Prop)
    (r1 : result A * rng1) (r2 : result A * rng2) : Prop :=
  fst r1 = fst r2 /\ R (snd r1) (snd r2).

(** ** A concrete generator, exponential and cost functions

    Small stand-ins on which the walker can be run: a counter as generator
    state, whose draws alternate, and an exponential that is exact at the
    zeros, the infinities and NaN and coarse elsewhere. *)

Module Demo.

Definition half : spec_float := S754_finite false 4503599627370496 (-53).

Definition random_uniform (g : nat) : spec_float * nat :=
  (if Nat.even g then F64.zero else half, S g).

Definition random_normal (s : spec_float) (g : nat) : spec_float * nat :=
  (if Nat.even g then s else SFopp s, S g).

Definition random_seed (s : Z) : nat := Z.to_nat s.

Definition math_exp (x : spec_float) : option spec_float :=
  match x with
  | S754_zero _ => Some F64.one
  | S754_nan => Some S754_nan
  | S754_infinity true => Some F64.zero
  | S754_infinity false => Some F64.infty
  | S754_finite true _ _ => Some half
  | S754_finite false _ _ => None
  end.

(** A cost with a flat floor at the origin of the first parameter. *)
Definition well (q : list spec_float) (_ _ _ : unit) : spec_float :=
  match q with
  | x :: _ => if F64.eqb x F64.zero then F64.zero else F64.one
  | [] => F64.zero
  end.

(** A cost that is the same everywhere. *)
Definition flat (q : list spec_float) (_ _ _ : unit) : spec_float := F64.one.

(** A cost that forbids every point but [q0]. *)
Definition spike (q0 q : list spec_float) (_ _ _ : unit) : spec_float :=
  if decide (q = q0) then F64.one else F64.infty.

Definition mone : spec_float := S754_finite true 4503599627370496 (-52).

End Demo.

(** The walker over the concrete generator and exponential. *)
Abbreviation demo_run :=
  (mhMCMC Demo.random_normal Demo.random_uniform Demo.math_exp tt tt tt).

(** ** The draws of one step, parameter by parameter *)

(** What the loop over [j] is meant to compute, as a traversal: one offset
    per scale, from left to right, a normal draw where the scale is above
    zero and [0.] where it is not. *)
Fixpoint draw_each {rng : Type} (random_normal : float -> rng -> float * rng)
    (scales : vec) : M rng vec :=
  match scales with
  | [] => ret []
  | s :: rest =>
      bind (if F64.gtb s F64.zero then normal random_normal s else ret F64.zero)
           (fun d => bind (draw_each random_normal rest)
                          (fun ds => ret (d :: ds)))
  end.

(** A cost that no accepted proposal can have: [+inf] or NaN. *)
Definition bad_cost (c : spec_float) : Prop := c = F64.infty \/ c = S754_nan.

(** ** The model curve [crazyfunction] *)

(** [a * b] on floats. *)
Definition fmul (a b : spec_float) : spec_float := SFmul F64.prec F64.emax a b.

Section Curve.

(** [np.cos] and [np.sin] on a float; on an array they work entry by
    entry. *)
Variable np_cos : float -> float.
Variable np_sin : float -> float.

(** [p[k]] for [k >= 0], where no generator is involved. *)
Definition item (p : vec) (k : nat) : result float :=
  match p !! k with
  | Some v => Ok v
  | None => Raise IndexError
  end.

(** [y = p[0]*np.cos(p[1]*x) + p[2]*np.sin(p[3]*x)] on an array [x]: the
    subscripts are evaluated from left to right, each product and each
    call on the whole array. *)
Definition crazyfunction (p x : vec) : result vec :=
  match item p 0 with
  | Raise e => Raise e
  | Ok p0 =>
      match item p 1 with
      | Raise e => Raise e
      | Ok p1 =>
          let c := map (fmul p0) (map np_cos (map (fmul p1) x)) in
          match item p 2 with
          | Raise e => Raise e
          | Ok p2 =>
              match item p 3 with
              | Raise e => Raise e
              | Ok p3 =>
                  let s := map (fmul p2) (map np_sin (map (fmul p3) x)) in
                  Ok (zip_with F64.add c s)
              end
          end
      end
  end.

End Curve.

(** ** More concrete cost functions and a concrete curve *)

Module Demo2.

(** A cost that is not a number away from the origin of the first
    parameter. *)
Definition undefined_off_origin (q : list spec_float) (_ _ _ : unit) : spec_float :=
  match q with
  | S754_zero _ :: _ => F64.one
  | _ => S754_nan
  end.

(** A cost that is NaN at [q0] and 1 elsewhere. *)
Definition hole (q0 q : list spec_float) (_ _ _ : unit) : spec_float :=
  if decide (q = q0) then S754_nan else F64.one.

(** Stand-ins for [np.cos] and [np.sin]: exact at the zeros. *)
Definition np_cos (x : spec_float) : spec_float :=
  match x with
  | S754_zero _ => F64.one
  | S754_finite _ _ _ => Demo.half
  | _ => S754_nan
  end.

Definition np_sin (x : spec_float) : spec_float :=
  match x with
  | S754_zero s => S754_zero s
  | S754_finite s _ _ => if s then SFopp Demo.half else Demo.half
  | _ => S754_nan
  end.

End Demo2.

(** ** Facts on binary64 arithmetic *)

Section FloatFacts.
Local Open Scope Z_scope.

Lemma digits2_pos_upper (m : positive) : Z.pos m < 2 ^ Z.pos (digits2_pos m).
Proof.
  induction m as [m IH | m IH |]; simpl digits2_pos;
    rewrite ?Pos2Z.inj_succ, ?Z.pow_succ_r by lia; lia.
Qed.

Lemma digits2_pos_lower (m : positive) : 2 ^ (Z.pos (digits2_pos m) - 1) <= Z.pos m.
Proof.
  induction m as [m IH | m IH |]; simpl digits2_pos;
    rewrite ?Pos2Z.inj_succ;
    try (replace (Z.succ (Z.pos (digits2_pos m)) - 1)
           with (Z.succ (Z.pos (digits2_pos m) - 1)) by lia;
         rewrite Z.pow_succ_r by lia);
    simpl; lia.
Qed.

Lemma iter_xO_pow2 (m d : positive) : Z.pos (Pos.iter xO m d) = Z.pos m * 2 ^ Z.pos d.
Proof.
  induction d as [|d IH] using Pos.peano_ind.
  - simpl. lia.
  - rewrite Pos.iter_succ, Pos2Z.inj_succ, Z.pow_succ_r by lia.
    rewrite Pos2Z.inj_xO, IH. lia.
Qed.

(** Aligning a mantissa to a smaller exponent keeps the number. *)
Lemma shl_align_value (m : positive) (e e' : Z) :
  e' <= e -> Z.pos (fst (shl_align m e e')) = Z.pos m * 2 ^ (e - e').
Proof.
  intros Hle. unfold shl_align.
  destruct (e' - e) as [|d|d] eqn:Hd; simpl fst.
  - replace (e - e') with 0 by lia. lia.
  - lia.
  - rewrite iter_xO_pow2. f_equal. f_equal. lia.
Qed.

(** Of two binary64 numbers the one with the larger exponent is the
    larger in magnitude. *)
Lemma bounded_gap (m1 m2 : positive) (e1 e2 : Z) :
  bounded F64.prec F64.emax m1 e1 = true ->
  bounded F64.prec F64.emax m2 e2 = true ->
  e1 < e2 -> Z.pos m1 < Z.pos m2 * 2 ^ (e2 - e1).
Proof.
  unfold bounded, canonical_mantissa, fexp, emin, F64.prec, F64.emax.
  intros [H1 _]%andb_prop [H2 _]%andb_prop Hlt.
  apply Z.eqb_eq in H1, H2.
  assert (Hd2 : Z.pos (digits2_pos m2) = 53) by lia.
  assert (Hd1 : Z.pos (digits2_pos m1) <= 53) by lia.
  pose proof (digits2_pos_upper m1) as U1.
  pose proof (digits2_pos_lower m2) as L2. rewrite Hd2 in L2.
  assert (2 ^ Z.pos (digits2_pos m1) <= 2 ^ 53) by (apply Z.pow_le_mono_r; lia).
  assert (2 ^ 1 <= 2 ^ (e2 - e1)) by (apply Z.pow_le_mono_r; lia).
  change (2 ^ 53) with (2 * 2 ^ (53 - 1)) in *.
  nia.
Qed.

Lemma not_positive_gtb (x : spec_float) :
  F64.not_positive x = negb (F64.gtb x F64.zero).
Proof. destruct x as [s|s| |s m e]; try destruct s; reflexivity. Qed.

Lemma binary_round_aux_negative (mx ex : Z) (lx : location) :
  F64.not_positive (binary_round_aux F64.prec F64.emax true mx ex lx) = true.
Proof.
  unfold binary_round_aux.
  destruct (shr_fexp _ _ mx ex lx) as [mrs' e'].
  destruct (shr_fexp _ _ _ e' loc_Exact) as [mrs'' e''].
  destruct (shr_m mrs'') as [|m|m]; try reflexivity.
  destruct (e'' <=? _); reflexivity.
Qed.

Lemma binary_normalize_nonpos (m e : Z) :
  m <= 0 -> F64.not_positive (binary_normalize F64.prec F64.emax m e false) = true.
Proof.
  intros Hm. destruct m as [|m|m]; [reflexivity | lia |].
  unfold binary_normalize, binary_round.
  destruct (shl_align _ _ _) as [mz ez]. apply binary_round_aux_negative.
Qed.

(** [a - b] is not positive unless [b < a]. *)
Lemma sub_not_positive (a b : spec_float) :
  F64.valid a = true -> F64.valid b = true ->
  F64.ltb b a = false -> F64.not_positive (F64.sub a b) = true.
Proof.
  intros Va Vb Hlt.
  destruct a as [sa|sa| |sa ma ea], b as [sb|sb| |sb mb eb];
    try (destruct sa); try (destruct sb); try reflexivity; try discriminate Hlt.
  all: unfold F64.sub, SFsub; apply binary_normalize_nonpos.
  all: unfold F64.valid, valid_binary in Va, Vb.
  all: unfold F64.ltb, SFltb, SFcompare in Hlt.
  all: rewrite !shl_align_value by lia; unfold cond_Zopp.
  all: destruct (Z.compare_spec eb ea) as [He|He|He].
  all: try discriminate Hlt.
  all: try (pose proof (bounded_gap _ _ _ _ Va Vb);
            pose proof (bounded_gap _ _ _ _ Vb Va)).
  all: rewrite ?Z.min_l, ?Z.min_r, ?Z.sub_diag by lia.
  all: try (subst; rewrite ?Z.min_l, ?Z.sub_diag by lia;
            rewrite Pos.compare_cont_spec in Hlt; simpl in Hlt;
            destruct (Pos.compare_spec mb ma); try discriminate Hlt; simpl; lia).
  all: try (simpl Z.pow; lia).
Qed.

Lemma div_two_not_positive (x : spec_float) :
  F64.not_positive x = true -> F64.not_positive (F64.div x F64.two) = true.
Proof.
  destruct x as [s|s| |s m e]; intros Hx; try reflexivity;
    cbn [F64.not_positive] in Hx; subst s; try reflexivity.
  unfold F64.div, F64.two, SFdiv.
  destruct (SFdiv_core_binary _ _ _ _ _ _) as [[mz ez] lz].
  apply binary_round_aux_negative.
Qed.

(** The argument handed to [math.exp] in the [else] branch is never
    positive. *)
Lemma half_diff_not_gtb (a b : spec_float) :
  F64.valid a = true -> F64.valid b = true -> F64.ltb b a = false ->
  F64.gtb (F64.div (F64.sub a b) F64.two) F64.zero = false.
Proof.
  intros Va Vb Hlt. apply negb_true_iff. rewrite <- not_positive_gtb.
  apply div_two_not_positive, sub_not_positive; assumption.
Qed.

Lemma add_zero_r (x : spec_float) :
  x <> S754_zero true -> F64.add x F64.zero = x.
Proof. destruct x as [[|]|[|]| |s m e]; intros Hx; try reflexivity. now elim Hx. Qed.

Lemma eqb_not_ltb (a b : spec_float) : F64.eqb a b = true -> F64.ltb a b = false.
Proof.
  unfold F64.eqb, F64.ltb, SFeqb, SFltb. destruct (SFcompare a b) as [[| |]|]; easy.
Qed.

Lemma eqb_finite_inv (s1 s2 : bool) (m1 m2 : positive) (e1 e2 : Z) :
  F64.eqb (S754_finite s1 m1 e1) (S754_finite s2 m2 e2) = true ->
  S754_finite s1 m1 e1 = S754_finite s2 m2 e2.
Proof.
  unfold F64.eqb, SFeqb, SFcompare.
  destruct s1, s2; try discriminate;
    destruct (Z.compare_spec e1 e2); try discriminate;
    rewrite Pos.compare_cont_spec; simpl;
    destruct (Pos.compare_spec m1 m2); try discriminate; intros _; congruence.
Qed.

Lemma sub_diag_finite (s : bool) (m : positive) (e : Z) :
  F64.sub (S754_finite s m e) (S754_finite s m e) = S754_zero false.
Proof. unfold F64.sub, SFsub. rewrite Z.sub_diag. reflexivity. Qed.

(** Equal finite costs: the argument of [math.exp] is a zero. *)
Lemma half_diff_equal (a b : spec_float) :
  F64.is_finite a = true -> F64.is_finite b = true -> F64.eqb b a = true ->
  exists s, F64.div (F64.sub a b) F64.two = S754_zero s.
Proof.
  intros Fa Fb Heq.
  destruct a as [sa|sa| |sa ma ea], b as [sb|sb| |sb mb eb]; try discriminate.
  - destruct sa, sb; eexists; reflexivity.
  - destruct sb; discriminate.
  - destruct sa; discriminate.
  - apply eqb_finite_inv in Heq. injection Heq as -> -> ->.
    rewrite sub_diag_finite. eexists; reflexivity.
Qed.

Lemma eqb_refl_finite (a : spec_float) : F64.is_finite a = true -> F64.eqb a a = true.
Proof.
  destruct a as [s|s| |s m e]; try discriminate; intros _; try reflexivity.
  unfold F64.eqb, SFeqb, SFcompare.
  destruct s; rewrite Z.compare_refl, Pos.compare_cont_refl; reflexivity.
Qed.

(** A finite current cost against a proposal of cost [+inf]. *)
Lemma half_diff_infty (a : spec_float) :
  F64.is_finite a = true ->
  F64.div (F64.sub a F64.infty) F64.two = S754_infinity true.
Proof. destruct a as [s|s| |s m e]; try discriminate; reflexivity. Qed.

Lemma leb_zero_not_gtb (u : spec_float) :
  F64.leb F64.zero u = true -> F64.gtb F64.zero u = false.
Proof. destruct u as [s|s| |s m e]; try destruct s; easy. Qed.

End FloatFacts.

(** ** Facts on the walker *)

Section WalkerFacts.

Context {rng data : Type}.
Variable random_normal : float -> rng -> float * rng.
Variable random_uniform : rng -> float * rng.
Variable math_exp : float -> option float.
Variables xi yi err : data.
Variable chi2func : vec -> data -> data -> data -> float.
Variable stepsize : vec.

Local Abbreviation cost q := (chi2func q xi yi err).
Local Abbreviation draw p := (draw_dp random_normal p stepsize).
Local Abbreviation decide_move p dp :=
  (accept random_uniform math_exp xi yi err chi2func p dp).
Local Abbreviation step p :=
  (mh_step random_normal random_uniform math_exp xi yi err chi2func stepsize p).
Local Abbreviation loop n p plist :=
  (mh_loop random_normal random_uniform math_exp n xi yi err chi2func stepsize p plist).
Local Abbreviation run initparams nsteps :=
  (mhMCMC random_normal random_uniform math_exp xi yi err chi2func
          initparams stepsize nsteps).

(** *** The monad *)

Lemma bind_ok_inv {A B} (m : M rng A) (k : A -> M rng B) g b g' :
  bind m k g = (Ok b, g') ->
  exists a g1, m g = (Ok a, g1) /\ k a g1 = (Ok b, g').
Proof.
  unfold bind. destruct (m g) as [[a|e] g1]; intros H; [eauto | discriminate].
Qed.

Lemma bind_ok {A B} (m : M rng A) (k : A -> M rng B) g a g1 :
  m g = (Ok a, g1) -> bind m k g = k a g1.
Proof. unfold bind. now intros ->. Qed.

Lemma bind_raise {A B} (m : M rng A) (k : A -> M rng B) g e g1 :
  m g = (Raise e, g1) -> bind m k g = (Raise e, g1).
Proof. unfold bind. now intros ->. Qed.

Lemma bind_ret {A B} (a : A) (k : A -> M rng B) g : bind (ret a) k g = k a g.
Proof. reflexivity. Qed.

Lemma bind_ext {A B} (m : M rng A) (k k' : A -> M rng B) g :
  (forall a g1, k a g1 = k' a g1) -> bind m k g = bind m k' g.
Proof. intros H. unfold bind. destruct (m g) as [[a|e] g1]; auto. Qed.

(** *** Drawing the proposal offset *)

Lemma draw_loop_length js : forall dp g dp' g',
  draw_loop random_normal stepsize js dp g = (Ok dp', g') -> length dp' = length dp.
Proof.
  induction js as [|j js IH]; intros dp g dp' g' H; simpl in H.
  - injection H as <- _. reflexivity.
  - apply bind_ok_inv in H as (s & g1 & _ & H).
    destruct (F64.gtb s F64.zero).
    + apply bind_ok_inv in H as (d & g2 & _ & H).
      apply IH in H. now rewrite length_insert in H.
    + eauto.
Qed.

(** An entry whose scale is not above zero is never written. *)
Lemma draw_loop_keeps i js : forall dp g dp' g',
  (forall s, stepsize !! i = Some s -> F64.gtb s F64.zero = false) ->
  draw_loop random_normal stepsize js dp g = (Ok dp', g') -> dp' !! i = dp !! i.
Proof.
  induction js as [|j js IH]; intros dp g dp' g' Hi H; simpl in H.
  - injection H as <- _. reflexivity.
  - apply bind_ok_inv in H as (s & g1 & Hs & H).
    unfold getitem in Hs. destruct (stepsize !! j) as [s'|] eqn:Hj; [|discriminate].
    injection Hs as -> ->.
    destruct (F64.gtb s F64.zero) eqn:Hgt.
    + apply bind_ok_inv in H as (d & g2 & _ & H).
      rewrite (IH _ _ _ _ Hi H). apply list_lookup_insert_ne.
      intros ->. specialize (Hi _ Hj). congruence.
    + eauto.
Qed.

Lemma draw_loop_total js : forall dp g,
  Forall (fun j => j < length stepsize) js ->
  exists dp' g', draw_loop random_normal stepsize js dp g = (Ok dp', g').
Proof.
  induction js as [|j js IH]; intros dp g Hjs; simpl.
  - unfold ret. eauto.
  - inversion Hjs as [|? ? Hj Hjs']; subst.
    apply lookup_lt_is_Some_2 in Hj as [s Hs].
    unfold getitem. rewrite Hs. unfold bind at 1, ret.
    destruct (F64.gtb s F64.zero).
    + unfold bind, normal. destruct (random_normal s g) as [d g1]. apply IH, Hjs'.
    + apply IH, Hjs'.
Qed.

(** The loop over [range(a, a+n)] stops with an [IndexError] when it
    reaches the end of [stepsize]. *)
Lemma draw_loop_index_error n : forall a dp g,
  a <= length stepsize < a + n ->
  fst (draw_loop random_normal stepsize (seq a n) dp g) = Raise IndexError.
Proof.
  induction n as [|n IH]; intros a dp g Ha; [lia|]. simpl.
  unfold getitem, bind at 1.
  destruct (stepsize !! a) as [s|] eqn:Hs.
  - apply lookup_lt_Some in Hs. unfold ret.
    destruct (F64.gtb s F64.zero).
    + unfold bind, normal. destruct (random_normal s g) as [d g1]. apply IH. lia.
    + apply IH. lia.
  - reflexivity.
Qed.

Lemma draw_length p g dp g' : draw p g = (Ok dp, g') -> length dp = length p.
Proof.
  intros H. apply draw_loop_length in H. now rewrite length_replicate in H.
Qed.

Lemma draw_zero p g dp g' i :
  (forall s, stepsize !! i = Some s -> F64.gtb s F64.zero = false) ->
  i < length p ->
  draw p g = (Ok dp, g') -> dp !! i = Some F64.zero.
Proof.
  intros Hi Hlt H. rewrite (draw_loop_keeps i _ _ _ _ _ Hi H).
  now apply lookup_replicate_2.
Qed.

Lemma draw_total p g :
  length p <= length stepsize -> exists dp g', draw p g = (Ok dp, g').
Proof.
  intros Hle. apply draw_loop_total, Forall_forall.
  intros j Hj%elem_of_seq. lia.
Qed.

Lemma draw_index_error p g :
  length stepsize < length p -> fst (draw p g) = Raise IndexError.
Proof. intros Hlt. apply draw_loop_index_error. lia. Qed.

Lemma vadd_length p dp : length dp = length p -> length (vadd p dp) = length p.
Proof. intros H. unfold vadd. rewrite length_zip_with. lia. Qed.

(** *** The acceptance test *)

(** What the libraries guarantee: [np.random.uniform(0., 1.)] draws from
    [0, 1); [math.exp] gives 1 at both zeros and 0 at [-inf], and raises
    [OverflowError] only above zero. *)
Hypothesis uniform_range : forall g,
  F64.leb F64.zero (fst (random_uniform g)) = true /\
  F64.ltb (fst (random_uniform g)) F64.one = true.
Hypothesis exp_zero : forall s, math_exp (S754_zero s) = Some F64.one.
Hypothesis exp_neg_infty : math_exp (S754_infinity true) = Some F64.zero.
Hypothesis exp_defined : forall x,
  F64.gtb x F64.zero = false -> is_Some (math_exp x).

Lemma accept_cases p dp g p' g' :
  decide_move p dp g = (Ok p', g') -> p' = p \/ p' = vadd p dp.
Proof.
  unfold accept. destruct (F64.ltb _ _).
  - intros [= <- _]. now right.
  - intros (r & g1 & _ & H)%bind_ok_inv.
    apply bind_ok_inv in H as (u & g2 & _ & H).
    destruct (F64.gtb r u); injection H as <- _; auto.
Qed.

Lemma accept_total p dp g :
  (forall q, F64.valid (cost q) = true) ->
  exists p' g', decide_move p dp g = (Ok p', g').
Proof.
  intros Hv. unfold accept.
  destruct (F64.ltb _ _) eqn:Hlt; [unfold ret; eauto|].
  destruct (exp_defined _ (half_diff_not_gtb _ _ (Hv p) (Hv (vadd p dp)) Hlt))
    as [r Hr].
  unfold exp. rewrite Hr. unfold bind, ret, uniform.
  destruct (random_uniform g) as [u g1].
  destruct (F64.gtb r u); eauto.
Qed.

(** *** One step *)

Lemma step_cases p g p' g' :
  step p g = (Ok p', g') ->
  exists dp gd, draw p g = (Ok dp, gd) /\ decide_move p dp gd = (Ok p', g') /\
                (p' = p \/ p' = vadd p dp).
Proof.
  intros (dp & gd & Hd & Ha)%bind_ok_inv.
  exists dp, gd. eauto using accept_cases.
Qed.

Lemma step_length p g p' g' : step p g = (Ok p', g') -> length p' = length p.
Proof.
  intros (dp & gd & Hd & _ & [-> | ->])%step_cases; [reflexivity|].
  apply vadd_length. eapply draw_length, Hd.
Qed.

Lemma step_total p g :
  length p <= length stepsize ->
  (forall q, F64.valid (cost q) = true) ->
  exists p' g', step p g = (Ok p', g').
Proof.
  intros Hle Hv. destruct (draw_total p g Hle) as (dp & gd & Hd).
  unfold mh_step. rewrite (bind_ok _ _ _ _ _ Hd). now apply accept_total.
Qed.

Lemma step_index_error p g :
  length stepsize < length p -> fst (step p g) = Raise IndexError.
Proof.
  intros Hlt. pose proof (draw_index_error p g Hlt) as H.
  unfold mh_step, bind. destruct (draw p g) as [[dp|e] gd]; simpl in *; congruence.
Qed.

(** *** The loop *)

Lemma loop_extends n : forall p plist g chain g',
  loop n p plist g = (Ok chain, g') ->
  exists tail, chain = plist ++ tail /\ length tail = n.
Proof.
  induction n as [|n IH]; intros p plist g chain g' H; simpl in H.
  - injection H as <- _. exists []. now rewrite app_nil_r.
  - apply bind_ok_inv in H as (p' & g1 & _ & H).
    apply IH in H as (tail & -> & Hlen).
    exists (p' :: tail). rewrite <- app_assoc. simpl. auto.
Qed.

(** A property of the position kept by every step holds all along the
    chain. *)
Lemma loop_Forall (P : vec -> Prop) :
  (forall p g p' g', P p -> step p g = (Ok p', g') -> P p') ->
  forall n p plist g chain g',
    P p -> Forall P plist ->
    loop n p plist g = (Ok chain, g') -> Forall P chain.
Proof.
  intros Hstep. induction n as [|n IH]; intros p plist g chain g' Hp Hl H; simpl in H.
  - now injection H as <- _.
  - apply bind_ok_inv in H as (p' & g1 & Hs & H).
    assert (P p') by eauto.
    eapply IH; [| |exact H]; [assumption|].
    apply Forall_app; auto.
Qed.

Lemma loop_total (P : vec -> Prop) :
  (forall p g, P p -> exists p' g', step p g = (Ok p', g') /\ P p') ->
  forall n p plist g,
    P p -> exists chain g', loop n p plist g = (Ok chain, g').
Proof.
  intros Hstep. induction n as [|n IH]; intros p plist g Hp; simpl.
  - unfold ret. eauto.
  - destruct (Hstep p g Hp) as (p' & g1 & Hs & Hp').
    rewrite (bind_ok _ _ _ _ _ Hs). now apply IH.
Qed.

Lemma loop_S n p plist g :
  loop (S n) p plist g = bind (step p) (fun p' => loop n p' (plist ++ [p'])) g.
Proof. reflexivity. Qed.

(** The run of [n + 1] passes is the run of [n] passes followed by one
    step from the last position. *)
Lemma loop_snoc n : forall p plist g chain g1 pn,
  last plist = Some p ->
  loop n p plist g = (Ok chain, g1) -> last chain = Some pn ->
  loop (S n) p plist g = bind (step pn) (fun p' => ret (chain ++ [p'])) g1.
Proof.
  induction n as [|n IH]; intros p plist g chain g1 pn Hlast H Hpn.
  - simpl in H. injection H as <- <-. rewrite Hlast in Hpn. injection Hpn as <-.
    reflexivity.
  - rewrite loop_S in H. apply bind_ok_inv in H as (p' & g2 & Hs & H).
    rewrite loop_S, (bind_ok _ _ _ _ _ Hs).
    eapply IH; eauto using last_snoc.
Qed.

Lemma loop_raise n : forall p plist g e g1,
  loop n p plist g = (Raise e, g1) -> loop (S n) p plist g = (Raise e, g1).
Proof.
  induction n as [|n IH]; intros p plist g e g1 H; [discriminate|].
  rewrite loop_S in H. rewrite loop_S.
  destruct (step p g) as [[p'|e'] g2] eqn:Hs.
  - rewrite (bind_ok _ _ _ _ _ Hs) in H. rewrite (bind_ok _ _ _ _ _ Hs).
    apply IH, H.
  - rewrite (bind_raise _ _ _ _ _ Hs) in H. rewrite (bind_raise _ _ _ _ _ Hs).
    exact H.
Qed.

Lemma loop_last n : forall p plist g chain g',
  last plist = Some p ->
  loop n p plist g = (Ok chain, g') -> is_Some (last chain).
Proof.
  intros p plist g chain g' Hlast (tail & -> & _)%loop_extends.
  destruct plist as [|q plist]; [discriminate|].
  destruct (last ((q :: plist) ++ tail)) eqn:E; [eauto|].
  apply last_None in E. discriminate.
Qed.



Lemma loop_ok_pred n p plist g chain g' :
  loop (S n) p plist g = (Ok chain, g') ->
  exists chain_n g_n, loop n p plist g = (Ok chain_n, g_n).
Proof.
  intros H. destruct (loop n p plist g) as [[chain_n|e] g_n] eqn:Hn; [eauto|].
  apply loop_raise in Hn. congruence.
Qed.

(** Every shorter run is a prefix of the run: after [k] passes the walker
    stands at entry [k] of the chain, and the next step from there gives
    entry [k + 1]. *)
Lemma loop_prefix n : forall p g chain g',
  loop n p [p] g = (Ok chain, g') ->
  forall k, k < n ->
    exists chain_k g_k p_k p' g'',
      loop k p [p] g = (Ok chain_k, g_k) /\
      chain !! k = Some p_k /\ step p_k g_k = (Ok p', g'') /\
      chain !! S k = Some p'.
Proof.
  induction n as [|n IH]; intros p g chain g' H k Hk; [lia|].
  destruct (loop_ok_pred _ _ _ _ _ _ H) as (chain_n & g_n & Hn).
  destruct (loop_last n p [p] g chain_n g_n eq_refl Hn) as [pn Hpn].
  rewrite (loop_snoc n p [p] g chain_n g_n pn eq_refl Hn Hpn) in H.
  apply bind_ok_inv in H as (p' & g1 & Hs & H). injection H as <- <-.
  destruct (loop_extends _ _ _ _ _ _ Hn) as (tail & Hc & Hlen).
  assert (Hlen_n : length chain_n = S n) by (subst chain_n; simpl; lia).
  destruct (decide (k = n)) as [->|Hne].
  - exists chain_n, g_n, pn, p', g1. repeat split; try assumption.
    + rewrite lookup_app_l by lia.
      rewrite last_lookup, Hlen_n in Hpn. exact Hpn.
    + rewrite lookup_app_r by lia. rewrite Hlen_n, Nat.sub_diag. reflexivity.
  - destruct (IH _ _ _ _ Hn k ltac:(lia))
      as (chain_k & g_k & p_k & q & g2 & Hk1 & Hk2 & Hk3 & Hk4).
    exists chain_k, g_k, p_k, q, g2. repeat split; try assumption.
    + rewrite lookup_app_l by lia. exact Hk2.
    + rewrite lookup_app_l by lia. exact Hk4.
Qed.

(** *** Shape of the chain *)

(** C1: on equal-length [initparams] and [stepsize], [nsteps >= 0] and a
    cost function with binary64 values, [mhMCMC] returns a chain of
    exactly [nsteps + 1] rows whose row 0 is [initparams] itself, whatever
    its cost; with [nsteps = 0] the chain is [initparams] alone and the
    generator is left untouched. *)
Theorem mhMCMC_length_first initparams nsteps g :
  length initparams = length stepsize ->
  (0 <= nsteps)%Z ->
  (forall q, F64.valid (chi2func q xi yi err) = true) ->
  exists chain g',
    mhMCMC random_normal random_uniform math_exp xi yi err chi2func
           initparams stepsize nsteps g = (Ok chain, g') /\
    Z.of_nat (length chain) = (nsteps + 1)%Z /\
    chain !! 0 = Some initparams /\
    (nsteps = 0%Z -> chain = [initparams] /\ g' = g).
Proof.
  intros Hlen Hn Hv. unfold mhMCMC.
  destruct (loop_total (fun p => length p = length stepsize)) with
    (n := Z.to_nat nsteps) (p := initparams) (plist := [initparams]) (g := g)
    as (chain & g' & Hrun); [|assumption|].
  { intros p g0 Hp. destruct (step_total p g0 ltac:(lia) Hv) as (p' & g1 & Hs).
    exists p', g1. split; [assumption|]. apply step_length in Hs. congruence. }
  exists chain, g'. split; [assumption|].
  destruct (loop_extends _ _ _ _ _ _ Hrun) as (tail & -> & Htail).
  split; [rewrite length_app, Htail; simpl; lia|].
  split; [reflexivity|].
  intros ->. simpl in Hrun. injection Hrun as Hc Hg. rewrite <- Hc. auto.
Qed.

(** *** The acceptance rule *)

(** C2: at a step whose drawn offset is [dp], a strictly lower proposed
    cost moves the walker to [p + dp] without a uniform draw; otherwise
    [r = exp((cost(p) - cost(p + dp)) / 2)] is computed, [u] is drawn by
    [np.random.uniform(0., 1.)], and the walker moves to [p + dp] when
    [r > u] and stays at [p] when not. *)
Theorem accept_rule p g dp gd :
  draw_dp random_normal p stepsize g = (Ok dp, gd) ->
  (F64.ltb (chi2func (vadd p dp) xi yi err) (chi2func p xi yi err) = true ->
   mh_step random_normal random_uniform math_exp xi yi err chi2func stepsize p g
     = (Ok (vadd p dp), gd)) /\
  (F64.ltb (chi2func (vadd p dp) xi yi err) (chi2func p xi yi err) = false ->
   forall r,
     math_exp (F64.div (F64.sub (chi2func p xi yi err)
                                (chi2func (vadd p dp) xi yi err))
                       F64.two) = Some r ->
     mh_step random_normal random_uniform math_exp xi yi err chi2func stepsize p g
       = (Ok (if F64.gtb r (fst (random_uniform gd)) then vadd p dp else p),
          snd (random_uniform gd))).
Proof.
  intros Hd. unfold mh_step. rewrite (bind_ok _ _ _ _ _ Hd). unfold accept.
  split; intros Hlt; rewrite Hlt; [reflexivity|].
  intros r Hr. unfold exp. rewrite Hr. unfold bind, ret, uniform.
  destruct (random_uniform gd) as [u g1]. simpl.
  destruct (F64.gtb r u); reflexivity.
Qed.

(** *** Successive rows *)

(** Step [k + 1] of a run: the offset is drawn from row [k] in the
    generator state left by the first [k] steps, and the acceptance test
    yields row [k + 1]. *)
Lemma chain_draws initparams nsteps g chain g' :
  run initparams nsteps g = (Ok chain, g') ->
  forall k, k < Z.to_nat nsteps ->
    exists p p' dp gd g'',
      chain !! k = Some p /\ chain !! S k = Some p' /\
      draw p (snd (run initparams (Z.of_nat k) g)) = (Ok dp, gd) /\
      decide_move p dp gd = (Ok p', g'') /\
      (p' = p \/ p' = vadd p dp).
Proof.
  unfold mhMCMC. intros Hrun k Hk.
  destruct (loop_prefix _ _ _ _ _ Hrun k Hk)
    as (chain_k & g_k & p_k & p' & g2 & Hk1 & Hk2 & Hk3 & Hk4).
  apply step_cases in Hk3 as (dp & gd & Hd & Ha & Hor).
  exists p_k, p', dp, gd, g2. rewrite Nat2Z.id, Hk1. auto.
Qed.

(** C3: in a chain returned by [mhMCMC], row [k + 1] is row [k] itself or
    row [k] plus the offset [dp] drawn at that step, that is, drawn from
    row [k] in the generator state left by the first [k] steps. *)
Theorem chain_moves initparams nsteps g chain g' :
  mhMCMC random_normal random_uniform math_exp xi yi err chi2func
         initparams stepsize nsteps g = (Ok chain, g') ->
  forall k, k < Z.to_nat nsteps ->
    exists p p' dp gd,
      chain !! k = Some p /\ chain !! S k = Some p' /\
      draw_dp random_normal p stepsize
        (snd (mhMCMC random_normal random_uniform math_exp xi yi err chi2func
                     initparams stepsize (Z.of_nat k) g))
        = (Ok dp, gd) /\
      (p' = p \/ p' = vadd p dp).
Proof.
  intros Hrun k Hk.
  destruct (chain_draws _ _ _ _ _ Hrun k Hk)
    as (p & p' & dp & gd & g2 & H1 & H2 & H3 & _ & H5).
  exists p, p', dp, gd. auto.
Qed.

(** *** Parameters that never move *)

Lemma pinned_value_eqb x y :
  pinned_value x y -> F64.is_nan x = false -> F64.eqb y x = true.
Proof.
  intros [-> | [-> ->]] Hx; [|reflexivity].
  destruct x as [s|[|]| |s m e]; try discriminate; try reflexivity.
  apply eqb_refl_finite. reflexivity.
Qed.

Lemma pinned_value_add_zero x y :
  pinned_value x y -> pinned_value x (F64.add y F64.zero).
Proof.
  intros [-> | [-> ->]].
  - destruct (decide (x = S754_zero true)) as [->|Hx].
    + right. split; reflexivity.
    + left. now apply add_zero_r.
  - right. split; reflexivity.
Qed.

(** A step leaves the entry of a scale that is not above zero pinned. *)
Lemma step_pinned i x p g p' g' :
  (forall s, stepsize !! i = Some s -> F64.gtb s F64.zero = false) ->
  (exists y, p !! i = Some y /\ pinned_value x y) ->
  step p g = (Ok p', g') ->
  exists y, p' !! i = Some y /\ pinned_value x y.
Proof.
  intros Hi (y & Hy & Hxy) (dp & gd & Hd & _ & [-> | ->])%step_cases; [eauto|].
  apply lookup_lt_Some in Hy as Hlt.
  pose proof (draw_zero _ _ _ _ _ Hi Hlt Hd) as Hz.
  exists (F64.add y F64.zero). split.
  - unfold vadd. rewrite lookup_zip_with, Hy. simpl. rewrite Hz. reflexivity.
  - now apply pinned_value_add_zero.
Qed.

Lemma chain_pinned i x initparams nsteps g chain g' :
  (forall s, stepsize !! i = Some s -> F64.gtb s F64.zero = false) ->
  initparams !! i = Some x ->
  run initparams nsteps g = (Ok chain, g') ->
  forall k v, chain !! k = Some v ->
    exists y, v !! i = Some y /\ pinned_value x y.
Proof.
  intros Hi Hx Hrun k v Hv.
  assert (H0 : exists y, initparams !! i = Some y /\ pinned_value x y)
    by (exists x; split; [assumption | now left]).
  pose proof (loop_Forall (fun p => exists y, p !! i = Some y /\ pinned_value x y)
                (fun p g0 p' g1 => step_pinned i x p g0 p' g1 Hi)
                _ _ _ _ _ _ H0 (proj2 (Forall_singleton _ _) H0) Hrun) as Hall.
  rewrite Forall_lookup in Hall. exact (Hall k v Hv).
Qed.

Lemma eqb_zero_not_gtb s : F64.eqb s F64.zero = true -> F64.gtb s F64.zero = false.
Proof. destruct s as [?|[|]| |[|] ? ?]; easy. Qed.

Lemma ltb_zero_not_gtb s : F64.ltb s F64.zero = true -> F64.gtb s F64.zero = false.
Proof. destruct s as [?|[|]| |[|] ? ?]; easy. Qed.

(** C4: when [stepsize[i] == 0], every row of a returned chain holds at
    index [i] the float [initparams[i]] itself, or [+0.] where
    [initparams[i]] is [-0.]: a value equal ([==]) to [initparams[i]]
    whenever that is a number.  At every step entry [i] of the drawn
    offset is exactly [0.]. *)
Theorem zero_scale_pins i s x initparams nsteps g chain g' :
  stepsize !! i = Some s -> F64.eqb s F64.zero = true ->
  initparams !! i = Some x ->
  mhMCMC random_normal random_uniform math_exp xi yi err chi2func
         initparams stepsize nsteps g = (Ok chain, g') ->
  (forall k v, chain !! k = Some v ->
     exists y, v !! i = Some y /\ pinned_value x y /\
               (F64.is_nan x = false -> F64.eqb y x = true)) /\
  (forall k, k < Z.to_nat nsteps ->
     exists p dp gd,
       chain !! k = Some p /\
       draw_dp random_normal p stepsize
         (snd (mhMCMC random_normal random_uniform math_exp xi yi err chi2func
                      initparams stepsize (Z.of_nat k) g))
         = (Ok dp, gd) /\
       dp !! i = Some F64.zero).
Proof.
  intros Hs Hz Hx Hrun.
  assert (Hi : forall s', stepsize !! i = Some s' -> F64.gtb s' F64.zero = false).
  { intros s' Hs'. rewrite Hs in Hs'. injection Hs' as <-.
    now apply eqb_zero_not_gtb. }
  split.
  - intros k v Hv.
    destruct (chain_pinned i x _ _ _ _ _ Hi Hx Hrun k v Hv) as (y & Hy & Hp).
    exists y. split; [assumption|]. split; [assumption|].
    now apply pinned_value_eqb.
  - intros k Hk.
    destruct (chain_draws _ _ _ _ _ Hrun k Hk)
      as (p & p' & dp & gd & g2 & H1 & _ & H3 & _).
    destruct (chain_pinned i x _ _ _ _ _ Hi Hx Hrun k p H1) as (y & Hy & _).
    exists p, dp, gd. split; [assumption|]. split; [assumption|].
    eapply draw_zero; eauto using lookup_lt_Some.
Qed.

(** *** Scales that are not above zero *)

(** The loop over [j] reads a scale only to test [stepsize[j] > 0]: a
    scale that fails the test can be replaced by [0.]. *)
Lemma draw_loop_scale_zero i s js : forall dp g,
  stepsize !! i = Some s -> F64.gtb s F64.zero = false ->
  draw_loop random_normal (<[i:=F64.zero]> stepsize) js dp g =
  draw_loop random_normal stepsize js dp g.
Proof.
  intros dp g Hs Hgt. revert dp g.
  induction js as [|j js IH]; intros dp g; [reflexivity|].
  cbn [draw_loop]. unfold getitem. destruct (decide (i = j)) as [<-|Hne].
  - rewrite list_lookup_insert_eq by (eapply lookup_lt_Some, Hs).
    rewrite Hs, !bind_ret, Hgt.
    change (F64.gtb F64.zero F64.zero) with false. cbv iota. apply IH.
  - rewrite list_lookup_insert_ne by assumption.
    destruct (stepsize !! j) as [sj|]; [|reflexivity].
    rewrite !bind_ret.
    destruct (F64.gtb sj F64.zero); [|apply IH].
    apply bind_ext. intros d g1. apply IH.
Qed.

Lemma loop_scale_zero i s n : forall p plist g,
  stepsize !! i = Some s -> F64.gtb s F64.zero = false ->
  mh_loop random_normal random_uniform math_exp n xi yi err chi2func
          (<[i:=F64.zero]> stepsize) p plist g =
  loop n p plist g.
Proof.
  intros p plist g Hs Hgt. revert p plist g.
  induction n as [|n IH]; intros p plist g; [reflexivity|].
  cbn [mh_loop]. unfold mh_step, draw_dp.
  rewrite (bind_ext _ _ _ _ (fun p' g1 => IH p' (plist ++ [p']) g1)).
  unfold bind. now rewrite (draw_loop_scale_zero i s _ _ _ Hs Hgt).
Qed.

(** C9: a negative [stepsize[i]] raises no error and is treated as a
    scale of zero.  The run equals the run with [stepsize[i]] set to [0.];
    in every chain it returns, each row holds at index [i] the float
    [initparams[i]] (or [+0.] for [-0.]), equal ([==]) to it whenever it is
    a number, and entry [i] of every drawn offset is exactly [0.]; and on
    equal-length inputs and binary64 costs it does return a chain. *)
Theorem negative_scale_pins i s x initparams nsteps g :
  stepsize !! i = Some s -> F64.ltb s F64.zero = true ->
  initparams !! i = Some x ->
  mhMCMC random_normal random_uniform math_exp xi yi err chi2func
         initparams (<[i:=F64.zero]> stepsize) nsteps g =
    mhMCMC random_normal random_uniform math_exp xi yi err chi2func
           initparams stepsize nsteps g /\
  (forall chain g',
     mhMCMC random_normal random_uniform math_exp xi yi err chi2func
            initparams stepsize nsteps g = (Ok chain, g') ->
     (forall k v, chain !! k = Some v ->
        exists y, v !! i = Some y /\ pinned_value x y /\
                  (F64.is_nan x = false -> F64.eqb y x = true)) /\
     (forall k, k < Z.to_nat nsteps ->
        exists p dp gd,
          chain !! k = Some p /\
          draw_dp random_normal p stepsize
            (snd (mhMCMC random_normal random_uniform math_exp xi yi err chi2func
                         initparams stepsize (Z.of_nat k) g))
            = (Ok dp, gd) /\
          dp !! i = Some F64.zero)) /\
  (length initparams = length stepsize ->
   (forall q, F64.valid (chi2func q xi yi err) = true) ->
   exists chain g',
     mhMCMC random_normal random_uniform math_exp xi yi err chi2func
            initparams stepsize nsteps g = (Ok chain, g')).
Proof.
  intros Hs Hneg Hx.
  pose proof (ltb_zero_not_gtb _ Hneg) as Hgt.
  split; [exact (loop_scale_zero i s _ _ _ _ Hs Hgt)|].
  assert (Hi : forall s', stepsize !! i = Some s' -> F64.gtb s' F64.zero = false)
    by (intros s' Hs'; congruence).
  split.
  - intros chain g' Hrun. split.
    + intros k v Hk.
      destruct (chain_pinned i x _ _ _ _ _ Hi Hx Hrun k v Hk) as (y & Hy & Hp).
      exists y. split; [assumption|]. split; [assumption|].
      now apply pinned_value_eqb.
    + intros k Hk.
      destruct (chain_draws _ _ _ _ _ Hrun k Hk)
        as (p & p' & dp & gd & g2 & H1 & _ & H3 & _).
      destruct (chain_pinned i x _ _ _ _ _ Hi Hx Hrun k p H1) as (y & Hy & _).
      exists p, dp, gd. split; [assumption|]. split; [assumption|].
      eapply draw_zero; eauto using lookup_lt_Some.
  - intros Hlen Hv.
    apply (loop_total (fun p => length p = length stepsize)); [|assumption].
    intros p g0 Hp. destruct (step_total p g0 ltac:(lia) Hv) as (p' & g1 & Hst).
    exists p', g1. split; [assumption|]. apply step_length in Hst. congruence.
Qed.

(** *** Proposals of infinite cost *)

Hypothesis exp_nan : math_exp S754_nan = Some S754_nan.

Lemma infty_not_ltb (c : spec_float) : F64.ltb F64.infty c = false.
Proof. destruct c as [?|[|]| |[|] ? ?]; reflexivity. Qed.

Lemma half_diff_infty_any (c : spec_float) :
  F64.div (F64.sub c F64.infty) F64.two = S754_infinity true \/
  F64.div (F64.sub c F64.infty) F64.two = S754_nan.
Proof. destruct c as [?|[|]| |[|] ? ?]; auto. Qed.

Lemma nan_not_gtb (u : spec_float) : F64.gtb S754_nan u = false.
Proof. destruct u as [?|[|]| |[|] ? ?]; reflexivity. Qed.

(** A proposal of cost [+inf] is refused, whatever the current cost. *)
Lemma accept_rejects_infty p dp g :
  cost (vadd p dp) = F64.infty ->
  decide_move p dp g = (Ok p, snd (random_uniform g)).
Proof.
  intros Hinf. unfold accept. rewrite Hinf, infty_not_ltb. unfold exp.
  destruct (uniform_range g) as [Hu _].
  destruct (half_diff_infty_any (cost p)) as [-> | ->].
  - rewrite exp_neg_infty. unfold bind, ret, uniform.
    destruct (random_uniform g) as [u g1]. simpl in *.
    change (S754_zero false) with F64.zero.
    now rewrite (leb_zero_not_gtb u Hu).
  - rewrite exp_nan. unfold bind, ret, uniform.
    destruct (random_uniform g) as [u g1]. simpl.
    now rewrite nan_not_gtb.
Qed.

Lemma step_avoids_infty p g p' g' :
  cost p <> F64.infty -> step p g = (Ok p', g') -> cost p' <> F64.infty.
Proof.
  intros Hp (dp & gd & _ & Ha & _)%step_cases Hp'.
  destruct (decide (cost (vadd p dp) = F64.infty)) as [Hinf|Hfin].
  - rewrite (accept_rejects_infty _ _ _ Hinf) in Ha. injection Ha as <- _. auto.
  - apply accept_cases in Ha as [-> | ->]; auto.
Qed.

(** C5: with a finite current cost and a proposal of cost [+inf], [r] is
    [0.], no draw [u] of [np.random.uniform(0., 1.)] is below it, and the
    walker stays at [p]; a run started at a point whose cost is not [+inf]
    never puts a point of cost [+inf] in the chain. *)
Theorem infinite_cost_rejected :
  (forall p dp g,
     F64.is_finite (chi2func p xi yi err) = true ->
     chi2func (vadd p dp) xi yi err = F64.infty ->
     math_exp (F64.div (F64.sub (chi2func p xi yi err)
                                (chi2func (vadd p dp) xi yi err))
                       F64.two) = Some F64.zero /\
     F64.gtb F64.zero (fst (random_uniform g)) = false /\
     accept random_uniform math_exp xi yi err chi2func p dp g
       = (Ok p, snd (random_uniform g))) /\
  (forall initparams nsteps g chain g',
     chi2func initparams xi yi err <> F64.infty ->
     mhMCMC random_normal random_uniform math_exp xi yi err chi2func
            initparams stepsize nsteps g = (Ok chain, g') ->
     forall k v, chain !! k = Some v -> chi2func v xi yi err <> F64.infty).
Proof.
  split.
  - intros p dp g Hfin Hinf. split; [|split].
    + rewrite Hinf, half_diff_infty by assumption. exact exp_neg_infty.
    + apply leb_zero_not_gtb, uniform_range.
    + now apply accept_rejects_infty.
  - intros initparams nsteps g chain g' H0 Hrun k v Hv.
    pose proof (loop_Forall (fun p => cost p <> F64.infty) step_avoids_infty
                  _ _ _ _ _ _ H0
                  (proj2 (Forall_singleton (fun p => cost p <> F64.infty) _) H0)
                  Hrun) as Hall.
    rewrite Forall_lookup in Hall. exact (Hall k v Hv).
Qed.

(** *** Proposals of equal cost *)

Lemma accept_equal_cost p dp g :
  F64.is_finite (cost p) = true -> F64.is_finite (cost (vadd p dp)) = true ->
  F64.eqb (cost (vadd p dp)) (cost p) = true ->
  math_exp (F64.div (F64.sub (cost p) (cost (vadd p dp))) F64.two) = Some F64.one /\
  decide_move p dp g = (Ok (vadd p dp), snd (random_uniform g)).
Proof.
  intros Fp Fq Heq.
  destruct (half_diff_equal _ _ Fp Fq Heq) as [s Hs].
  split; [rewrite Hs; apply exp_zero|].
  unfold accept. rewrite (eqb_not_ltb _ _ Heq), Hs. unfold exp.
  rewrite exp_zero. unfold bind, ret, uniform.
  destruct (uniform_range g) as [_ Hu].
  destruct (random_uniform g) as [u g1]. simpl in *.
  unfold F64.gtb. unfold F64.ltb in Hu. now rewrite Hu.
Qed.

(** C10: when the proposed and the current cost are the same finite
    number, the test for a strict improvement fails, [r] is [exp(0) = 1.],
    every draw [u] of [np.random.uniform(0., 1.)] is below it, and the
    walker moves to [p + dp]. *)
Theorem equal_cost_accepted p dp g :
  F64.is_finite (chi2func p xi yi err) = true ->
  F64.is_finite (chi2func (vadd p dp) xi yi err) = true ->
  F64.eqb (chi2func (vadd p dp) xi yi err) (chi2func p xi yi err) = true ->
  F64.ltb (chi2func (vadd p dp) xi yi err) (chi2func p xi yi err) = false /\
  math_exp (F64.div (F64.sub (chi2func p xi yi err)
                             (chi2func (vadd p dp) xi yi err))
                    F64.two) = Some F64.one /\
  F64.gtb F64.one (fst (random_uniform g)) = true /\
  accept random_uniform math_exp xi yi err chi2func p dp g
    = (Ok (vadd p dp), snd (random_uniform g)).
Proof.
  intros Fp Fq Heq.
  destruct (accept_equal_cost p dp g Fp Fq Heq) as [Hr Hmove].
  repeat split; try assumption.
  - now apply eqb_not_ltb.
  - apply uniform_range.
Qed.

(** *** A cost that forbids every point but the first *)

Section Spike.

Variable initparams : vec.
Hypothesis cost_init : F64.is_finite (cost initparams) = true.
Hypothesis cost_other : forall q, q <> initparams -> cost q = F64.infty.

Lemma spike_accept dp g :
  decide_move initparams dp g = (Ok initparams, snd (random_uniform g)).
Proof.
  destruct (decide (vadd initparams dp = initparams)) as [Heq|Hne].
  - pose proof (accept_equal_cost initparams dp g) as H.
    rewrite Heq in H. apply H; auto using eqb_refl_finite.
  - now apply accept_rejects_infty, cost_other.
Qed.

Lemma spike_step_stays g p' g' :
  step initparams g = (Ok p', g') -> p' = initparams.
Proof.
  intros (dp & gd & _ & Ha & _)%step_cases.
  rewrite spike_accept in Ha. now injection Ha as <- _.
Qed.

Lemma spike_step_total g :
  length initparams <= length stepsize ->
  exists g', step initparams g = (Ok initparams, g').
Proof.
  intros Hle. destruct (draw_total initparams g Hle) as (dp & gd & Hd).
  unfold mh_step. rewrite (bind_ok _ _ _ _ _ Hd), spike_accept. eauto.
Qed.

(** C6: under a cost that is finite at [initparams] and [+inf] at every
    other vector, each chain returned by [mhMCMC] is [initparams]
    repeated [nsteps + 1] times; and a chain is returned whenever
    [stepsize] has at least the length of [initparams]. *)
Theorem spike_cost_constant_chain nsteps g :
  (forall chain g',
     mhMCMC random_normal random_uniform math_exp xi yi err chi2func
            initparams stepsize nsteps g = (Ok chain, g') ->
     chain = replicate (S (Z.to_nat nsteps)) initparams) /\
  (length initparams <= length stepsize ->
   exists g',
     mhMCMC random_normal random_uniform math_exp xi yi err chi2func
            initparams stepsize nsteps g =
       (Ok (replicate (S (Z.to_nat nsteps)) initparams), g')).
Proof.
  assert (Hconst : forall chain g',
             run initparams nsteps g = (Ok chain, g') ->
             chain = replicate (S (Z.to_nat nsteps)) initparams).
  { intros chain g' Hrun. symmetry. apply replicate_as_Forall. split.
    - destruct (loop_extends _ _ _ _ _ _ Hrun) as (tail & -> & Hlen).
      simpl. now rewrite Hlen.
    - apply (loop_Forall (fun p => initparams = p)) with
        (n := Z.to_nat nsteps) (p := initparams) (plist := [initparams])
        (g := g) (g' := g'); auto.
      intros p g0 p' g1 <- Hs. symmetry. eapply spike_step_stays, Hs. }
  split; [exact Hconst|].
  intros Hle.
  destruct (loop_total (fun p => p = initparams)) with
    (n := Z.to_nat nsteps) (p := initparams) (plist := [initparams]) (g := g)
    as (chain & g' & Hrun); [|reflexivity|].
  { intros p g0 ->. destruct (spike_step_total g0 Hle) as [g1 Hs]. eauto. }
  exists g'. rewrite <- (Hconst chain g' Hrun). exact Hrun.
Qed.

End Spike.

(** *** Inputs that break the contract *)

Lemma loop_index_error n p plist g :
  length stepsize < length p ->
  fst (loop (S n) p plist g) = Raise IndexError.
Proof.
  intros Hlt. pose proof (step_index_error p g Hlt) as H.
  rewrite loop_S. unfold bind.
  destruct (step p g) as [[p'|e] g1]; simpl in *; congruence.
Qed.

(** C8, as the code has it: no input is checked.  A [stepsize] shorter
    than [initparams] ends a run of at least one step in the
    [IndexError] of the first pass through the loop over [j], and no
    chain is returned.  With [stepsize] at least as long as [initparams],
    whatever the signs of its entries, a chain of [nsteps + 1] rows is
    returned; and with [nsteps <= 0] the chain is [initparams] alone. *)
Theorem no_input_validation initparams nsteps g :
  (length stepsize < length initparams -> (0 < nsteps)%Z ->
   fst (mhMCMC random_normal random_uniform math_exp xi yi err chi2func
               initparams stepsize nsteps g) = Raise IndexError) /\
  (length initparams <= length stepsize ->
   (forall q, F64.valid (chi2func q xi yi err) = true) ->
   exists chain g',
     mhMCMC random_normal random_uniform math_exp xi yi err chi2func
            initparams stepsize nsteps g = (Ok chain, g') /\
     length chain = S (Z.to_nat nsteps)) /\
  ((nsteps <= 0)%Z ->
   mhMCMC random_normal random_uniform math_exp xi yi err chi2func
          initparams stepsize nsteps g = (Ok [initparams], g)).
Proof.
  split; [|split].
  - intros Hlt Hn. unfold mhMCMC.
    destruct (Z.to_nat nsteps) as [|n] eqn:E; [lia|].
    now apply loop_index_error.
  - intros Hle Hv.
    destruct (loop_total (fun p => length p = length initparams)) with
      (n := Z.to_nat nsteps) (p := initparams) (plist := [initparams]) (g := g)
      as (chain & g' & Hrun); [|reflexivity|].
    { intros p g0 Hp. destruct (step_total p g0 ltac:(lia) Hv) as (p' & g1 & Hs).
      exists p', g1. split; [assumption|]. apply step_length in Hs. congruence. }
    exists chain, g'. split; [assumption|].
    destruct (loop_extends _ _ _ _ _ _ Hrun) as (tail & -> & Hlen).
    simpl. now rewrite Hlen.
  - intros Hn. unfold mhMCMC. replace (Z.to_nat nsteps) with 0 by lia. reflexivity.
Qed.

End WalkerFacts.

(** ** Seeded runs *)

Section SeededRuns.

(** Two generators, in states that correspond when every draw from them
    gives the same float; seeding both with the same seed makes their
    states correspond. *)
Context {rng1 rng2 data : Type}.
Variable R : rng1 -> rng2 -> Prop.
Variable random_normal1 : float -> rng1 -> float * rng1.
Variable random_normal2 : float -> rng2 -> float * rng2.
Variable random_uniform1 : rng1 -> float * rng1.
Variable random_uniform2 : rng2 -> float * rng2.
Variable random_seed1 : Z -> rng1.
Variable random_seed2 : Z -> rng2.
Variable math_exp : float -> option float.
Variables xi yi err : data.
Variable chi2func : vec -> data -> data -> data -> float.
Variable stepsize : vec.

Hypothesis normal_agrees : forall s g1 g2,
  R g1 g2 ->
  fst (random_normal1 s g1) = fst (random_normal2 s g2) /\
  R (snd (random_normal1 s g1)) (snd (random_normal2 s g2)).
Hypothesis uniform_agrees : forall g1 g2,
  R g1 g2 ->
  fst (random_uniform1 g1) = fst (random_uniform2 g2) /\
  R (snd (random_uniform1 g1)) (snd (random_uniform2 g2)).
Hypothesis seed_agrees : forall s, R (random_seed1 s) (random_seed2 s).

Lemma same_outcome_bind {A B} (m1 : M rng1 A) (m2 : M rng2 A)
    (k1 : A -> M rng1 B) (k2 : A -> M rng2 B) g1 g2 :
  same_outcome R (m1 g1) (m2 g2) ->
  (forall a h1 h2, R h1 h2 -> same_outcome R (k1 a h1) (k2 a h2)) ->
  same_outcome R (bind m1 k1 g1) (bind m2 k2 g2).
Proof.
  unfold same_outcome, bind. intros [Hv Hg] Hk.
  destruct (m1 g1) as [[a1|e1] h1], (m2 g2) as [[a2|e2] h2];
    simpl in *; try discriminate.
  - injection Hv as <-. now apply Hk.
  - injection Hv as ->. now split.
Qed.

Lemma same_outcome_pure {A} (m1 : M rng1 A) (m2 : M rng2 A) g1 g2 :
  R g1 g2 -> (exists r, m1 g1 = (r, g1) /\ m2 g2 = (r, g2)) ->
  same_outcome R (m1 g1) (m2 g2).
Proof. intros Hg (r & -> & ->). now split. Qed.

Lemma same_outcome_normal s g1 g2 :
  R g1 g2 ->
  same_outcome R (normal random_normal1 s g1) (normal random_normal2 s g2).
Proof.
  intros Hg. destruct (normal_agrees s g1 g2 Hg) as [Hv Hs].
  unfold same_outcome, normal.
  destruct (random_normal1 s g1), (random_normal2 s g2). simpl in *.
  split; [now f_equal | assumption].
Qed.

Lemma same_outcome_uniform g1 g2 :
  R g1 g2 ->
  same_outcome R (uniform random_uniform1 g1) (uniform random_uniform2 g2).
Proof.
  intros Hg. destruct (uniform_agrees g1 g2 Hg) as [Hv Hs].
  unfold same_outcome, uniform.
  destruct (random_uniform1 g1), (random_uniform2 g2). simpl in *.
  split; [now f_equal | assumption].
Qed.

Lemma same_outcome_draw_loop js : forall dp g1 g2,
  R g1 g2 ->
  same_outcome R (draw_loop random_normal1 stepsize js dp g1)
                 (draw_loop random_normal2 stepsize js dp g2).
Proof.
  induction js as [|j js IH]; intros dp g1 g2 Hg; cbn [draw_loop].
  - now split.
  - apply same_outcome_bind.
    + apply same_outcome_pure; [assumption|].
      unfold getitem. destruct (stepsize !! j); eexists; split; reflexivity.
    + intros s h1 h2 Hh. destruct (F64.gtb s F64.zero); [|now apply IH].
      apply same_outcome_bind; [now apply same_outcome_normal|].
      intros d k1 k2 Hk. now apply IH.
Qed.

Lemma same_outcome_accept p dp g1 g2 :
  R g1 g2 ->
  same_outcome R (accept random_uniform1 math_exp xi yi err chi2func p dp g1)
                 (accept random_uniform2 math_exp xi yi err chi2func p dp g2).
Proof.
  intros Hg. unfold accept. destruct (F64.ltb _ _); [now split|].
  apply same_outcome_bind.
  - apply same_outcome_pure; [assumption|].
    unfold exp. destruct (math_exp _); eexists; split; reflexivity.
  - intros r h1 h2 Hh. apply same_outcome_bind; [now apply same_outcome_uniform|].
    intros u k1 k2 Hk. destruct (F64.gtb r u); now split.
Qed.

Lemma same_outcome_loop n : forall p plist g1 g2,
  R g1 g2 ->
  same_outcome R
    (mh_loop random_normal1 random_uniform1 math_exp n xi yi err chi2func
             stepsize p plist g1)
    (mh_loop random_normal2 random_uniform2 math_exp n xi yi err chi2func
             stepsize p plist g2).
Proof.
  induction n as [|n IH]; intros p plist g1 g2 Hg; cbn [mh_loop].
  - now split.
  - apply same_outcome_bind.
    + unfold mh_step. apply same_outcome_bind.
      * now apply same_outcome_draw_loop.
      * intros dp h1 h2 Hh. now apply same_outcome_accept.
    + intros p' h1 h2 Hh. now apply IH.
Qed.

(** C7: two runs of [mhMCMC] on the same inputs, each made right after
    [np.random.seed(s)] with the same [s], return the same chain (or end
    in the same exception) and leave their generators in corresponding
    states, whatever the generator states [g1] and [g2] before seeding.
    The two runs may use one generator ([R] is then equality) or two
    generators that deliver the same draws. *)
Theorem seeded_runs_agree s initparams nsteps g1 g2 :
  same_outcome R
    (bind (seed random_seed1 s)
          (fun _ => mhMCMC random_normal1 random_uniform1 math_exp xi yi err
                           chi2func initparams stepsize nsteps) g1)
    (bind (seed random_seed2 s)
          (fun _ => mhMCMC random_normal2 random_uniform2 math_exp xi yi err
                           chi2func initparams stepsize nsteps) g2).
Proof.
  apply same_outcome_bind.
  - split; [reflexivity | apply seed_agrees].
  - intros _ h1 h2 Hh. unfold mhMCMC. now apply same_outcome_loop.
Qed.

End SeededRuns.

(** On one generator, corresponding states being equal ones, runs that end
    alike are equal. *)
Lemma same_outcome_eq {rng A : Type} (r1 r2 : result A * rng) :
  same_outcome eq r1 r2 -> r1 = r2.
Proof. destruct r1, r2. unfold same_outcome. simpl. now intros [-> ->]. Qed.


(** ** Further facts on the walker *)

Section WalkerShape.

Context {rng data : Type}.
Variable random_normal : float -> rng -> float * rng.
Variable random_uniform : rng -> float * rng.
Variable math_exp : float -> option float.
Variables xi yi err : data.
Variable chi2func : vec -> data -> data -> data -> float.
Variable stepsize : vec.

Local Abbreviation loop n p plist :=
  (mh_loop random_normal random_uniform math_exp n xi yi err chi2func stepsize p plist).

(** *** Rows of the chain *)

(** Every row of a returned chain has the length of [initparams]: the
    array [np.array(plist)] has [nparams] columns. *)
Theorem chain_rows_length initparams nsteps g chain g' :
  mhMCMC random_normal random_uniform math_exp xi yi err chi2func
         initparams stepsize nsteps g = (Ok chain, g') ->
  forall k v, chain !! k = Some v -> length v = length initparams.
Proof.
  intros Hrun k v Hv.
  pose proof (loop_Forall random_normal random_uniform math_exp xi yi err chi2func
                stepsize (fun p => length p = length initparams)) as HF.
  assert (Hall : Forall (fun p => length p = length initparams) chain).
  { eapply HF; [| |apply Forall_singleton|exact Hrun]; try reflexivity.
    intros p g0 p' g1 Hp Hs. apply step_length in Hs. congruence. }
  rewrite Forall_lookup in Hall. exact (Hall k v Hv).
Qed.

(** *** Running on from the last row *)

(** The loop entered with a longer [plist] appends the same rows. *)
Lemma loop_frame n : forall p plist g,
  loop n p plist g =
    match loop n p [p] g with
    | (Ok c, g') => (Ok (plist ++ tail c), g')
    | (Raise e, g') => (Raise e, g')
    end.
Proof.
  induction n as [|n IH]; intros p plist g.
  - simpl. unfold ret. now rewrite app_nil_r.
  - rewrite !loop_S. unfold bind.
    destruct (mh_step _ _ _ _ _ _ _ _ p g) as [[p'|e] g1]; [|reflexivity].
    rewrite (IH p' (plist ++ [p'])), (IH p' ([p] ++ [p'])).
    destruct (mh_loop _ _ _ n _ _ _ _ _ p' [p'] g1) as [[c|e] g2]; [|reflexivity].
    simpl. now rewrite <- app_assoc.
Qed.

Lemma loop_add n m : forall p plist g chain g1 pn,
  loop n p plist g = (Ok chain, g1) -> last chain = Some pn ->
  last plist = Some p ->
  loop (n + m) p plist g = loop m pn chain g1.
Proof.
  induction n as [|n IH]; intros p plist g chain g1 pn H Hpn Hlast.
  - simpl in H. injection H as <- <-. rewrite Hlast in Hpn. now injection Hpn as <-.
  - rewrite loop_S in H. apply bind_ok_inv in H as (p' & g2 & Hs & H).
    change (S n + m) with (S (n + m)). rewrite loop_S, (bind_ok _ _ _ _ _ Hs).
    eapply IH; eauto using last_snoc.
Qed.

(** A failed run stays failed however many steps are added. *)
Lemma loop_add_raise n m : forall p plist g e g1,
  loop n p plist g = (Raise e, g1) -> loop (n + m) p plist g = (Raise e, g1).
Proof.
  induction n as [|n IH]; intros p plist g e g1 H; [discriminate|].
  rewrite loop_S in H. change (S n + m) with (S (n + m)). rewrite loop_S.
  unfold bind in *.
  destruct (mh_step _ _ _ _ _ _ _ _ p g) as [[p'|e'] g2]; [now apply IH | assumption].
Qed.

(** A run of [n + m] steps is the run of [n] steps followed by a run of
    [m] steps that starts at the last row, in the generator state the
    first run has left: its chain is the first chain followed by the rows
    of the second after its row 0, and an exception of the second run is
    the exception of the whole.  When the run of [n] steps ends in an
    exception, so does the run of [n + m] steps, in the same generator
    state. *)
Theorem run_continues initparams n m g :
  (0 <= n)%Z -> (0 <= m)%Z ->
  (forall chain g1 pn,
     mhMCMC random_normal random_uniform math_exp xi yi err chi2func
            initparams stepsize n g = (Ok chain, g1) ->
     last chain = Some pn ->
     mhMCMC random_normal random_uniform math_exp xi yi err chi2func
            initparams stepsize (n + m) g =
       match mhMCMC random_normal random_uniform math_exp xi yi err chi2func
                    pn stepsize m g1 with
       | (Ok more, g2) => (Ok (chain ++ tail more), g2)
       | (Raise e, g2) => (Raise e, g2)
       end) /\
  (forall e g1,
     mhMCMC random_normal random_uniform math_exp xi yi err chi2func
            initparams stepsize n g = (Raise e, g1) ->
     mhMCMC random_normal random_uniform math_exp xi yi err chi2func
            initparams stepsize (n + m) g = (Raise e, g1)).
Proof.
  unfold mhMCMC. intros Hn Hm. rewrite Z2Nat.inj_add by assumption. split.
  - intros chain g1 pn Hrun Hpn.
    rewrite (loop_add _ (Z.to_nat m) _ _ _ _ _ _ Hrun Hpn eq_refl).
    apply loop_frame.
  - intros e g1 Hrun. now apply loop_add_raise.
Qed.

End WalkerShape.

Section WalkerScales.

Context {rng data : Type}.
Variable random_normal : float -> rng -> float * rng.
Variable random_uniform : rng -> float * rng.
Variable math_exp : float -> option float.
Variables xi yi err : data.
Variable chi2func : vec -> data -> data -> data -> float.

(** *** The entries of [stepsize] that are read *)

Lemma draw_loop_agree (s1 s2 : vec) js : forall dp g,
  Forall (fun j => s1 !! j = s2 !! j) js ->
  draw_loop random_normal s1 js dp g = draw_loop random_normal s2 js dp g.
Proof.
  induction js as [|j js IH]; intros dp g Hjs; [reflexivity|].
  inversion Hjs as [|? ? Hj Hjs']; subst.
  cbn [draw_loop]. unfold getitem. rewrite Hj.
  apply bind_ext. intros s g1.
  destruct (F64.gtb s F64.zero); [|now apply IH].
  apply bind_ext. intros d g2. now apply IH.
Qed.

Lemma draw_dp_agree (s1 s2 p : vec) g :
  (forall j, j < length p -> s1 !! j = s2 !! j) ->
  draw_dp random_normal p s1 g = draw_dp random_normal p s2 g.
Proof.
  intros H. apply draw_loop_agree, Forall_forall.
  intros j Hj%elem_of_seq. apply H. lia.
Qed.

Lemma loop_agree (s1 s2 : vec) L n : forall p plist g,
  (forall j, j < L -> s1 !! j = s2 !! j) -> length p = L ->
  mh_loop random_normal random_uniform math_exp n xi yi err chi2func s1 p plist g =
  mh_loop random_normal random_uniform math_exp n xi yi err chi2func s2 p plist g.
Proof.
  induction n as [|n IH]; intros p plist g H Hp; [reflexivity|].
  rewrite !loop_S.
  assert (Hstep : mh_step random_normal random_uniform math_exp xi yi err chi2func s1 p g
                  = mh_step random_normal random_uniform math_exp xi yi err chi2func s2 p g).
  { unfold mh_step, bind. rewrite (draw_dp_agree s1 s2 p g); [reflexivity|].
    intros j Hj. apply H. lia. }
  unfold bind. rewrite Hstep.
  destruct (mh_step _ _ _ _ _ _ _ s2 p g) as [[p'|e] g1] eqn:Hs; [|reflexivity].
  apply IH; [assumption|]. apply step_length in Hs. lia.
Qed.

(** [mhMCMC] reads [stepsize] at the indices below [len(initparams)] only:
    two [stepsize] arrays that agree there (each may lack an index the
    other lacks too) give the same run, chain or exception, and the same
    generator state.  So the entries of [stepsize] past [len(initparams)]
    can be cut off. *)
Theorem surplus_scales_ignored (stepsize stepsize' initparams : vec) nsteps g :
  (forall j, j < length initparams -> stepsize !! j = stepsize' !! j) ->
  mhMCMC random_normal random_uniform math_exp xi yi err chi2func
         initparams stepsize nsteps g =
    mhMCMC random_normal random_uniform math_exp xi yi err chi2func
           initparams stepsize' nsteps g /\
  mhMCMC random_normal random_uniform math_exp xi yi err chi2func
         initparams (take (length initparams) stepsize) nsteps g =
    mhMCMC random_normal random_uniform math_exp xi yi err chi2func
           initparams stepsize nsteps g.
Proof.
  intros H. unfold mhMCMC. split.
  - now apply loop_agree with (L := length initparams).
  - apply loop_agree with (L := length initparams); [|reflexivity].
    intros j Hj. now apply lookup_take_lt.
Qed.

(** *** A scale that is not a number *)

Lemma nan_not_above_zero : F64.gtb S754_nan F64.zero = false.
Proof. reflexivity. Qed.

(** A NaN in [stepsize[i]] raises no error and no normal draw is made with
    it: the run equals the run with [stepsize[i]] set to [0.], and in every
    chain it returns each row holds at index [i] the float [initparams[i]]
    (or [+0.] for [-0.]). *)
Theorem nan_scale_pins (stepsize initparams : vec) i x nsteps g :
  stepsize !! i = Some S754_nan ->
  initparams !! i = Some x ->
  mhMCMC random_normal random_uniform math_exp xi yi err chi2func
         initparams (<[i:=F64.zero]> stepsize) nsteps g =
    mhMCMC random_normal random_uniform math_exp xi yi err chi2func
           initparams stepsize nsteps g /\
  (forall chain g',
     mhMCMC random_normal random_uniform math_exp xi yi err chi2func
            initparams stepsize nsteps g = (Ok chain, g') ->
     forall k v, chain !! k = Some v ->
       exists y, v !! i = Some y /\ pinned_value x y).
Proof.
  intros Hs Hx. split.
  - exact (loop_scale_zero _ _ _ _ _ _ _ _ i S754_nan _ _ _ _ Hs nan_not_above_zero).
  - intros chain g' Hrun k v Hv.
    eapply chain_pinned; eauto.
    intros s' Hs'. rewrite Hs in Hs'. now injection Hs' as <-.
Qed.

End WalkerScales.

Section WalkerCosts.

Context {rng data : Type}.
Variable random_normal : float -> rng -> float * rng.
Variable random_uniform : rng -> float * rng.
Variable math_exp : float -> option float.
Variables xi yi err : data.
Variable chi2func : vec -> data -> data -> data -> float.
Variable stepsize : vec.

Local Abbreviation cost q := (chi2func q xi yi err).
Local Abbreviation decide_move p dp :=
  (accept random_uniform math_exp xi yi err chi2func p dp).
Local Abbreviation step p :=
  (mh_step random_normal random_uniform math_exp xi yi err chi2func stepsize p).
Local Abbreviation loop n p plist :=
  (mh_loop random_normal random_uniform math_exp n xi yi err chi2func stepsize p plist).

Hypothesis uniform_range : forall g,
  F64.leb F64.zero (fst (random_uniform g)) = true /\
  F64.ltb (fst (random_uniform g)) F64.one = true.
Hypothesis exp_neg_infty : math_exp (S754_infinity true) = Some F64.zero.
Hypothesis exp_nan : math_exp S754_nan = Some S754_nan.
Hypothesis exp_defined : forall x,
  F64.gtb x F64.zero = false -> is_Some (math_exp x).

(** *** The only exception *)

Lemma draw_loop_raises js : forall dp g e g',
  draw_loop random_normal stepsize js dp g = (Raise e, g') -> e = IndexError.
Proof.
  induction js as [|j js IH]; intros dp g e g' H; [discriminate|].
  cbn [draw_loop] in H. unfold getitem, bind at 1 in H.
  destruct (stepsize !! j) as [s|]; [|now injection H as <- _].
  unfold ret in H. destruct (F64.gtb s F64.zero); [|eauto].
  unfold bind, normal in H. destruct (random_normal s g) as [d g1]. eauto.
Qed.

Lemma loop_raises n : forall p plist g e g',
  (forall q, F64.valid (cost q) = true) ->
  loop n p plist g = (Raise e, g') -> e = IndexError.
Proof.
  induction n as [|n IH]; intros p plist g e g' Hv H; [discriminate|].
  rewrite loop_S in H. unfold bind at 1 in H.
  destruct (step p g) as [[p'|e'] g1] eqn:Hs; [eauto|].
  injection H as <- <-. unfold mh_step, bind in Hs.
  destruct (draw_dp random_normal p stepsize g) as [[dp|e''] gd] eqn:Hd.
  - destruct (accept_total random_uniform math_exp xi yi err chi2func
                exp_defined p dp gd Hv) as (q & g2 & Ha).
    congruence.
  - injection Hs as <- _. eapply draw_loop_raises, Hd.
Qed.

(** When the proposed cost is not below the current one, the argument
    [(chi2func(p) - chi2func(p + dp))/2.] handed to [math.exp] is never
    above zero; so [mhMCMC] never ends in the [OverflowError] of
    [math.exp]: an exception of the run, on inputs of any lengths, is the
    [IndexError] of [stepsize[j]]. *)
Theorem only_index_error :
  (forall q, F64.valid (chi2func q xi yi err) = true) ->
  (forall p dp,
     F64.ltb (chi2func (vadd p dp) xi yi err) (chi2func p xi yi err) = false ->
     F64.gtb (F64.div (F64.sub (chi2func p xi yi err)
                               (chi2func (vadd p dp) xi yi err))
                      F64.two) F64.zero = false) /\
  (forall initparams nsteps g e g',
     mhMCMC random_normal random_uniform math_exp xi yi err chi2func
            initparams stepsize nsteps g = (Raise e, g') ->
     e = IndexError).
Proof.
  intros Hv. split.
  - intros p dp Hlt. now apply half_diff_not_gtb.
  - intros initparams nsteps g e g' H. eapply loop_raises; eauto.
Qed.

(** *** Proposals whose cost is not a number *)

Lemma nan_not_ltb (c : spec_float) : F64.ltb S754_nan c = false.
Proof. destruct c as [?|[|]| |[|] ? ?]; reflexivity. Qed.

Lemma half_diff_nan (c : spec_float) :
  F64.div (F64.sub c S754_nan) F64.two = S754_nan.
Proof. destruct c as [?|[|]| |[|] ? ?]; reflexivity. Qed.

Lemma accept_rejects_nan p dp g :
  cost (vadd p dp) = S754_nan ->
  decide_move p dp g = (Ok p, snd (random_uniform g)).
Proof.
  intros Hnan. unfold accept. rewrite Hnan, nan_not_ltb, half_diff_nan.
  unfold exp. rewrite exp_nan. unfold bind, ret, uniform.
  destruct (random_uniform g) as [u g1]. simpl. now rewrite nan_not_gtb.
Qed.

Lemma step_avoids_bad p g p' g' :
  ~ bad_cost (cost p) -> step p g = (Ok p', g') -> ~ bad_cost (cost p').
Proof.
  intros Hp (dp & gd & _ & Ha & _)%step_cases Hp'.
  destruct (decide (cost (vadd p dp) = F64.infty)) as [Hinf|Hfin].
  { rewrite (accept_rejects_infty random_uniform math_exp xi yi err chi2func
               uniform_range exp_neg_infty exp_nan _ _ _ Hinf) in Ha.
    injection Ha as <- _. auto. }
  destruct (decide (cost (vadd p dp) = S754_nan)) as [Hnan|Hnum].
  { rewrite (accept_rejects_nan _ _ _ Hnan) in Ha. injection Ha as <- _. auto. }
  apply accept_cases in Ha as [-> | ->]; [auto|].
  destruct Hp'; auto.
Qed.

(** A proposal whose cost is [+inf] or NaN is refused whatever the current
    cost, an infinite or NaN one included, at the price of one uniform
    draw; so a run started where the cost is neither [+inf] nor NaN never
    puts a point of such a cost in the chain. *)
Theorem undefined_cost_rejected :
  (forall p dp g,
     chi2func (vadd p dp) xi yi err = F64.infty \/
     chi2func (vadd p dp) xi yi err = S754_nan ->
     accept random_uniform math_exp xi yi err chi2func p dp g
       = (Ok p, snd (random_uniform g))) /\
  (forall initparams nsteps g chain g',
     chi2func initparams xi yi err <> F64.infty ->
     chi2func initparams xi yi err <> S754_nan ->
     mhMCMC random_normal random_uniform math_exp xi yi err chi2func
            initparams stepsize nsteps g = (Ok chain, g') ->
     forall k v, chain !! k = Some v ->
       chi2func v xi yi err <> F64.infty /\ chi2func v xi yi err <> S754_nan).
Proof.
  split.
  - intros p dp g [Hinf | Hnan].
    + now apply (accept_rejects_infty random_uniform math_exp xi yi err chi2func
                   uniform_range exp_neg_infty exp_nan).
    + now apply accept_rejects_nan.
  - intros initparams nsteps g chain g' Hi Hn Hrun k v Hv.
    assert (H0 : ~ bad_cost (cost initparams)) by (intros [?|?]; auto).
    pose proof (loop_Forall random_normal random_uniform math_exp xi yi err chi2func
                  stepsize (fun p => ~ bad_cost (cost p)) step_avoids_bad
                  _ _ _ _ _ _ H0
                  (proj2 (Forall_singleton (fun p => ~ bad_cost (cost p)) _) H0)
                  Hrun) as Hall.
    rewrite Forall_lookup in Hall. specialize (Hall k v Hv).
    split; intros E; apply Hall; [now left | now right].
Qed.

(** *** A walker that cannot leave *)

Lemma stuck_ltb (c0 c : spec_float) :
  c0 = S754_nan \/ c0 = S754_infinity true -> F64.ltb c c0 = false.
Proof. intros [-> | ->]; destruct c as [?|[|]| |[|] ? ?]; reflexivity. Qed.

Lemma stuck_half_diff (c0 c : spec_float) :
  c0 = S754_nan \/ c0 = S754_infinity true ->
  F64.div (F64.sub c0 c) F64.two = S754_nan \/
  F64.div (F64.sub c0 c) F64.two = S754_infinity true.
Proof. intros [-> | ->]; destruct c as [?|[|]| |[|] ? ?]; auto. Qed.

Lemma stuck_accept p dp g :
  cost p = S754_nan \/ cost p = S754_infinity true ->
  decide_move p dp g = (Ok p, snd (random_uniform g)).
Proof.
  intros Hp. unfold accept. rewrite (stuck_ltb _ _ Hp). unfold exp.
  destruct (uniform_range g) as [Hu _].
  destruct (stuck_half_diff _ (cost (vadd p dp)) Hp) as [-> | ->].
  - rewrite exp_nan. unfold bind, ret, uniform.
    destruct (random_uniform g) as [u g1]. simpl. now rewrite nan_not_gtb.
  - rewrite exp_neg_infty. unfold bind, ret, uniform.
    destruct (random_uniform g) as [u g1]. simpl in *.
    change (S754_zero false) with F64.zero. now rewrite (leb_zero_not_gtb u Hu).
Qed.

(** A walker that starts where the cost is NaN or [-inf] never moves: no
    proposal passes either test, each step costs its normal draws and one
    uniform draw, and every chain returned is [initparams] repeated
    [nsteps + 1] times; one is returned whenever [stepsize] has at least
    the length of [initparams]. *)
Theorem stuck_walker initparams nsteps g :
  chi2func initparams xi yi err = S754_nan \/
  chi2func initparams xi yi err = S754_infinity true ->
  (forall dp gd,
     accept random_uniform math_exp xi yi err chi2func initparams dp gd
       = (Ok initparams, snd (random_uniform gd))) /\
  (forall chain g',
     mhMCMC random_normal random_uniform math_exp xi yi err chi2func
            initparams stepsize nsteps g = (Ok chain, g') ->
     chain = replicate (S (Z.to_nat nsteps)) initparams) /\
  (length initparams <= length stepsize ->
   exists g',
     mhMCMC random_normal random_uniform math_exp xi yi err chi2func
            initparams stepsize nsteps g =
       (Ok (replicate (S (Z.to_nat nsteps)) initparams), g')).
Proof.
  intros Hc.
  assert (Hstay : forall g0 p' g1, step initparams g0 = (Ok p', g1) -> p' = initparams).
  { intros g0 p' g1 (dp & gd & _ & Ha & _)%step_cases.
    rewrite (stuck_accept _ _ _ Hc) in Ha. now injection Ha as <- _. }
  assert (Hconst : forall chain g',
             loop (Z.to_nat nsteps) initparams [initparams] g = (Ok chain, g') ->
             chain = replicate (S (Z.to_nat nsteps)) initparams).
  { intros chain g' Hrun. symmetry. apply replicate_as_Forall. split.
    - destruct (loop_extends _ _ _ _ _ _ _ _ _ _ _ _ _ _ Hrun) as (tail & -> & Hlen).
      simpl. now rewrite Hlen.
    - apply (loop_Forall random_normal random_uniform math_exp xi yi err chi2func
               stepsize (fun p => initparams = p)) with
        (n := Z.to_nat nsteps) (p := initparams) (plist := [initparams])
        (g := g) (g' := g'); auto.
      intros p g0 p' g1 <- Hs. symmetry. eapply Hstay, Hs. }
  split; [intros dp gd; now apply stuck_accept|].
  split; [exact Hconst|].
  intros Hle.
  destruct (loop_total random_normal random_uniform math_exp xi yi err chi2func
              stepsize (fun p => p = initparams)) with
    (n := Z.to_nat nsteps) (p := initparams) (plist := [initparams]) (g := g)
    as (chain & g' & Hrun); [|reflexivity|].
  { intros p g0 ->.
    destruct (draw_total random_normal stepsize initparams g0 Hle) as (dp & gd & Hd).
    exists initparams, (snd (random_uniform gd)). split; [|reflexivity].
    unfold mh_step. rewrite (bind_ok _ _ _ _ _ Hd). now apply stuck_accept. }
  exists g'. unfold mhMCMC. rewrite <- (Hconst chain g' Hrun). exact Hrun.
Qed.

End WalkerCosts.

Section WalkerDraws.

Context {rng : Type}.
Variable random_normal : float -> rng -> float * rng.
Variable stepsize : vec.

(** *** The loop over [j] as a traversal of [stepsize] *)

Lemma bind_assoc {A B C} (m : M rng A) (k : A -> M rng B) (h : B -> M rng C) g :
  bind (bind m k) h g = bind m (fun a => bind (k a) h) g.
Proof. unfold bind. destruct (m g) as [[a|e] g1]; reflexivity. Qed.

Lemma bind_ret_r {A} (m : M rng A) g : bind m ret g = m g.
Proof. unfold bind, ret. destruct (m g) as [[a|e] g1]; reflexivity. Qed.

Lemma draw_each_ok scales : forall g,
  exists ds g', draw_each random_normal scales g = (Ok ds, g') /\
                length ds = length scales.
Proof.
  induction scales as [|s rest IH]; intros g; cbn [draw_each].
  - exists [], g. split; reflexivity.
  - assert (Hd : exists d g1,
               (if F64.gtb s F64.zero then normal random_normal s else ret F64.zero) g
               = (Ok d, g1)).
    { destruct (F64.gtb s F64.zero); [|unfold ret; eauto].
      unfold normal. destruct (random_normal s g); eauto. }
    destruct Hd as (d & g1 & Hd). rewrite (bind_ok _ _ _ _ _ Hd).
    destruct (IH g1) as (ds & g2 & Hds & Hlen). rewrite (bind_ok _ _ _ _ _ Hds).
    exists (d :: ds), g2. split; [reflexivity | simpl; now rewrite Hlen].
Qed.

Lemma insert_middle (pre : vec) (d z : spec_float) (post : vec) :
  <[length pre:=d]> (pre ++ z :: post) = (pre ++ [d]) ++ post.
Proof.
  rewrite insert_app_r_alt by lia. rewrite Nat.sub_diag. simpl.
  now rewrite <- app_assoc.
Qed.

Lemma draw_loop_traverse n : forall pre g,
  length pre + n <= length stepsize ->
  draw_loop random_normal stepsize (seq (length pre) n)
            (pre ++ replicate n F64.zero) g =
    bind (draw_each random_normal (take n (drop (length pre) stepsize)))
         (fun ds => ret (pre ++ ds)) g.
Proof.
  induction n as [|n IH]; intros pre g Hle.
  - reflexivity.
  - destruct (lookup_lt_is_Some_2 stepsize (length pre) ltac:(lia)) as [s Hs].
    rewrite (drop_S _ _ _ Hs). cbn [seq draw_loop replicate take draw_each].
    unfold getitem. rewrite Hs, bind_ret, bind_assoc.
    assert (Hnext : forall d g1,
               draw_loop random_normal stepsize (seq (S (length pre)) n)
                         ((pre ++ [d]) ++ replicate n F64.zero) g1 =
               bind (bind (draw_each random_normal
                             (take n (drop (S (length pre)) stepsize)))
                          (fun ds => ret (d :: ds)))
                    (fun ds => ret (pre ++ ds)) g1).
    { intros d g1. rewrite bind_assoc.
      replace (S (length pre)) with (length (pre ++ [d]))
        by (rewrite length_app; simpl; lia).
      rewrite IH by (rewrite length_app; simpl; lia).
      apply bind_ext. intros ds g2. rewrite bind_ret.
      now rewrite <- app_assoc. }
    destruct (F64.gtb s F64.zero).
    + apply bind_ext. intros d g1. rewrite insert_middle. apply Hnext.
    + rewrite bind_ret.
      change (pre ++ F64.zero :: replicate n F64.zero)
        with (pre ++ [F64.zero] ++ replicate n F64.zero).
      rewrite app_assoc. apply Hnext.
Qed.

Lemma draw_loop_short n : forall a dp g,
  a <= length stepsize < a + n ->
  draw_loop random_normal stepsize (seq a n) dp g =
    (Raise IndexError, snd (draw_each random_normal (drop a stepsize) g)).
Proof.
  induction n as [|n IH]; intros a dp g Ha; [lia|].
  cbn [seq draw_loop]. unfold getitem.
  destruct (stepsize !! a) as [s|] eqn:Hs.
  - apply lookup_lt_Some in Hs as Hlt.
    rewrite (drop_S _ _ _ Hs), bind_ret. cbn [draw_each].
    destruct (draw_each_ok (drop (S a) stepsize)) with
      (g := snd (random_normal s g)) as (ds1 & h1 & E1 & _).
    destruct (draw_each_ok (drop (S a) stepsize)) with (g := g) as (ds2 & h2 & E2 & _).
    destruct (F64.gtb s F64.zero).
    + unfold bind at 1, normal. unfold bind at 1.
      destruct (random_normal s g) as [d g1]. simpl in E1.
      rewrite IH by lia. rewrite (bind_ok _ _ _ _ _ E1). rewrite E1. reflexivity.
    + rewrite bind_ret, IH by lia. rewrite (bind_ok _ _ _ _ _ E2), E2. reflexivity.
  - apply lookup_ge_None in Hs. rewrite drop_ge by lia. reflexivity.
Qed.

(** The index loop that fills [dp] is a traversal of [stepsize] from left
    to right.  With [stepsize] at least as long as [p], [dp] holds one
    offset per parameter, drawn in that order: a normal draw where the
    scale is above zero, [0.] without a draw where it is not.  With a
    shorter [stepsize], the offsets of all its entries are drawn first and
    then the [IndexError] is raised. *)
Theorem draw_dp_traverses (p : vec) g :
  (length p <= length stepsize ->
   draw_dp random_normal p stepsize g =
     draw_each random_normal (take (length p) stepsize) g) /\
  (length stepsize < length p ->
   draw_dp random_normal p stepsize g =
     (Raise IndexError, snd (draw_each random_normal stepsize g))).
Proof.
  split; intros H; unfold draw_dp.
  - pose proof (draw_loop_traverse (length p) [] g ltac:(simpl; lia)) as E.
    simpl in E. rewrite E. apply bind_ret_r.
  - rewrite draw_loop_short by lia. reflexivity.
Qed.

End WalkerDraws.

(** ** Facts on the model curve *)

Section CurveFacts.

Variable np_cos : float -> float.
Variable np_sin : float -> float.

(** [crazyfunction] needs four parameters and reads no more than four:
    with fewer it ends in the [IndexError] of a subscript, whatever [x] is,
    and the parameters past [p[3]] do not matter.  With four it returns an
    array as long as [x], whose entry [i] is
    [p[0]*cos(p[1]*x[i]) + p[2]*sin(p[3]*x[i])]. *)
Theorem crazyfunction_reads_four (p x : vec) :
  (length p < 4 -> crazyfunction np_cos np_sin p x = Raise IndexError) /\
  crazyfunction np_cos np_sin (take 4 p) x = crazyfunction np_cos np_sin p x /\
  (forall p0 p1 p2 p3 rest,
     p = p0 :: p1 :: p2 :: p3 :: rest ->
     exists y,
       crazyfunction np_cos np_sin p x = Ok y /\
       length y = length x /\
       forall i xi, x !! i = Some xi ->
         y !! i = Some (F64.add (fmul p0 (np_cos (fmul p1 xi)))
                                (fmul p2 (np_sin (fmul p3 xi))))).
Proof.
  split; [|split].
  - intros Hlen. destruct p as [|p0 [|p1 [|p2 [|p3 rest]]]];
      try reflexivity. simpl in Hlen. lia.
  - destruct p as [|p0 [|p1 [|p2 [|p3 rest]]]]; reflexivity.
  - intros p0 p1 p2 p3 rest ->. eexists. split; [reflexivity|]. split.
    + rewrite length_zip_with, !length_map. lia.
    + intros i xi Hi. rewrite lookup_zip_with, !list_lookup_fmap, Hi. reflexivity.
Qed.

End CurveFacts.
(** ** The walker on the concrete generator *)

Module DemoFacts.

Lemma uniform_range (g : nat) :
  F64.leb F64.zero (fst (Demo.random_uniform g)) = true /\
  F64.ltb (fst (Demo.random_uniform g)) F64.one = true.
Proof. unfold Demo.random_uniform. simpl. destruct (Nat.even g); split; reflexivity. Qed.

Lemma exp_zero (s : bool) : Demo.math_exp (S754_zero s) = Some F64.one.
Proof. reflexivity. Qed.

Lemma exp_neg_infty : Demo.math_exp (S754_infinity true) = Some F64.zero.
Proof. reflexivity. Qed.

Lemma exp_nan : Demo.math_exp S754_nan = Some S754_nan.
Proof. reflexivity. Qed.

Lemma exp_defined (x : spec_float) :
  F64.gtb x F64.zero = false -> is_Some (Demo.math_exp x).
Proof.
  destruct x as [s|[|]| |[|] m e]; intros H; try discriminate H;
    eexists; reflexivity.
Qed.

Lemma well_valid (q : list spec_float) : F64.valid (Demo.well q tt tt tt) = true.
Proof.
  unfold Demo.well. destruct q as [|x q]; [reflexivity|].
  destruct (F64.eqb x F64.zero); reflexivity.
Qed.

Lemma flat_valid (q : list spec_float) : F64.valid (Demo.flat q tt tt tt) = true.
Proof. reflexivity. Qed.

Lemma spike_finite (q0 : list spec_float) :
  F64.is_finite (Demo.spike q0 q0 tt tt tt) = true.
Proof. unfold Demo.spike. now rewrite decide_True. Qed.

Lemma spike_infty (q0 q : list spec_float) :
  q <> q0 -> Demo.spike q0 q tt tt tt = F64.infty.
Proof. intros Hne. unfold Demo.spike. now rewrite decide_False. Qed.

End DemoFacts.

(** *** The theorems at concrete inputs *)

Lemma mhMCMC_length_first_witness :
  exists chain g',
    demo_run Demo.well [F64.one] [F64.one] 3 0 = (Ok chain, g') /\
    Z.of_nat (length chain) = (3 + 1)%Z /\
    chain !! 0 = Some [F64.one] /\
    (3%Z = 0%Z -> chain = [[F64.one]] /\ g' = 0).
Proof.
  apply (mhMCMC_length_first Demo.random_normal Demo.random_uniform Demo.math_exp
           tt tt tt Demo.well [F64.one] DemoFacts.exp_defined [F64.one] 3 0).
  - reflexivity.
  - lia.
  - exact DemoFacts.well_valid.
Defined.

Lemma accept_rule_witness :
  draw_dp Demo.random_normal [F64.one] [F64.one] 1 = (Ok [Demo.mone], 2) /\
  F64.ltb (Demo.well (vadd [F64.one] [Demo.mone]) tt tt tt)
          (Demo.well [F64.one] tt tt tt) = true /\
  mh_step Demo.random_normal Demo.random_uniform Demo.math_exp tt tt tt Demo.well
          [F64.one] [F64.one] 1 = (Ok (vadd [F64.one] [Demo.mone]), 2).
Proof.
  split; [reflexivity|]. split; [reflexivity|].
  apply (accept_rule Demo.random_normal Demo.random_uniform Demo.math_exp
           tt tt tt Demo.well [F64.one] [F64.one] 1 [Demo.mone] 2);
    reflexivity.
Defined.

Lemma chain_moves_witness :
  1 < Z.to_nat 3 /\
  exists p p' dp gd,
    [[F64.one];
     [S754_finite false 4503599627370496 (-51)];
     [S754_finite false 6755399441055744 (-51)];
     [S754_finite false 4503599627370496 (-50)]] !! 1 = Some p /\
    [[F64.one];
     [S754_finite false 4503599627370496 (-51)];
     [S754_finite false 6755399441055744 (-51)];
     [S754_finite false 4503599627370496 (-50)]] !! 2 = Some p' /\
    draw_dp Demo.random_normal p [F64.one]
      (snd (demo_run Demo.well [F64.one] [F64.one] (Z.of_nat 1) 0)) = (Ok dp, gd) /\
    (p' = p \/ p' = vadd p dp).
Proof.
  split; [simpl; lia|].
  apply (chain_moves Demo.random_normal Demo.random_uniform Demo.math_exp
           tt tt tt Demo.well [F64.one] [F64.one] 3 0 _ 6).
  - reflexivity.
  - simpl. lia.
Defined.

Lemma zero_scale_pins_witness :
  (forall k v,
     [[F64.one; S754_zero true];
      [S754_finite false 4503599627370496 (-51); S754_zero false];
      [S754_finite false 6755399441055744 (-51); S754_zero false];
      [S754_finite false 4503599627370496 (-50); S754_zero false]] !! k = Some v ->
     exists y, v !! 1 = Some y /\ pinned_value (S754_zero true) y /\
               (F64.is_nan (S754_zero true) = false ->
                F64.eqb y (S754_zero true) = true)) /\
  (forall k, k < Z.to_nat 3 ->
     exists p dp gd,
       [[F64.one; S754_zero true];
        [S754_finite false 4503599627370496 (-51); S754_zero false];
        [S754_finite false 6755399441055744 (-51); S754_zero false];
        [S754_finite false 4503599627370496 (-50); S754_zero false]] !! k = Some p /\
       draw_dp Demo.random_normal p [F64.one; F64.zero]
         (snd (demo_run Demo.well [F64.one; S754_zero true] [F64.one; F64.zero]
                        (Z.of_nat k) 0)) = (Ok dp, gd) /\
       dp !! 1 = Some F64.zero).
Proof.
  apply (zero_scale_pins Demo.random_normal Demo.random_uniform Demo.math_exp
           tt tt tt Demo.well [F64.one; F64.zero] 1 F64.zero (S754_zero true)
           [F64.one; S754_zero true] 3 0 _ 6);
    reflexivity.
Defined.

Lemma negative_scale_pins_witness :
  demo_run Demo.well [F64.one; F64.two] (<[1:=F64.zero]> [F64.one; Demo.mone]) 3 0 =
    demo_run Demo.well [F64.one; F64.two] [F64.one; Demo.mone] 3 0 /\
  (forall chain g',
     demo_run Demo.well [F64.one; F64.two] [F64.one; Demo.mone] 3 0 = (Ok chain, g') ->
     (forall k v, chain !! k = Some v ->
        exists y, v !! 1 = Some y /\ pinned_value F64.two y /\
                  (F64.is_nan F64.two = false -> F64.eqb y F64.two = true)) /\
     (forall k, k < Z.to_nat 3 ->
        exists p dp gd,
          chain !! k = Some p /\
          draw_dp Demo.random_normal p [F64.one; Demo.mone]
            (snd (demo_run Demo.well [F64.one; F64.two] [F64.one; Demo.mone]
                           (Z.of_nat k) 0)) = (Ok dp, gd) /\
          dp !! 1 = Some F64.zero)) /\
  (exists chain g',
     demo_run Demo.well [F64.one; F64.two] [F64.one; Demo.mone] 3 0 = (Ok chain, g')).
Proof.
  destruct (negative_scale_pins Demo.random_normal Demo.random_uniform Demo.math_exp
              tt tt tt Demo.well [F64.one; Demo.mone] DemoFacts.exp_defined
              1 Demo.mone F64.two [F64.one; F64.two] 3 0
              eq_refl eq_refl eq_refl)
    as (Hsame & Hpinned & Hruns).
  split; [exact Hsame|]. split; [exact Hpinned|].
  apply Hruns; [reflexivity | exact DemoFacts.well_valid].
Defined.

Lemma infinite_cost_rejected_witness :
  (Demo.math_exp (F64.div (F64.sub (Demo.spike [F64.zero] [F64.zero] tt tt tt)
                                   (Demo.spike [F64.zero]
                                      (vadd [F64.zero] [F64.one]) tt tt tt))
                          F64.two) = Some F64.zero /\
   F64.gtb F64.zero (fst (Demo.random_uniform 0)) = false /\
   accept Demo.random_uniform Demo.math_exp tt tt tt (Demo.spike [F64.zero])
          [F64.zero] [F64.one] 0 = (Ok [F64.zero], 1)) /\
  (forall k v,
     [[F64.zero]; [F64.zero]; [F64.zero]] !! k = Some v ->
     Demo.spike [F64.zero] v tt tt tt <> F64.infty).
Proof.
  destruct (infinite_cost_rejected Demo.random_normal Demo.random_uniform
              Demo.math_exp tt tt tt (Demo.spike [F64.zero]) [F64.one]
              DemoFacts.uniform_range DemoFacts.exp_neg_infty DemoFacts.exp_nan)
    as [Hstep Hchain].
  split.
  - apply (Hstep [F64.zero] [F64.one] 0); reflexivity.
  - apply (Hchain [F64.zero] 2%Z 0 _ 4); [discriminate | reflexivity].
Defined.

Lemma equal_cost_accepted_witness :
  F64.ltb (Demo.flat (vadd [F64.zero] [F64.one]) tt tt tt)
          (Demo.flat [F64.zero] tt tt tt) = false /\
  Demo.math_exp (F64.div (F64.sub (Demo.flat [F64.zero] tt tt tt)
                                  (Demo.flat (vadd [F64.zero] [F64.one]) tt tt tt))
                         F64.two) = Some F64.one /\
  F64.gtb F64.one (fst (Demo.random_uniform 1)) = true /\
  accept Demo.random_uniform Demo.math_exp tt tt tt Demo.flat [F64.zero] [F64.one] 1
    = (Ok (vadd [F64.zero] [F64.one]), snd (Demo.random_uniform 1)).
Proof.
  apply (equal_cost_accepted Demo.random_uniform Demo.math_exp tt tt tt Demo.flat
           DemoFacts.uniform_range DemoFacts.exp_zero [F64.zero] [F64.one] 1);
    reflexivity.
Defined.

Lemma spike_cost_constant_chain_witness :
  (forall chain g',
     demo_run (Demo.spike [F64.zero]) [F64.zero] [F64.one] 3 0 = (Ok chain, g') ->
     chain = [[F64.zero]; [F64.zero]; [F64.zero]; [F64.zero]]) /\
  (exists g',
     demo_run (Demo.spike [F64.zero]) [F64.zero] [F64.one] 3 0 =
       (Ok [[F64.zero]; [F64.zero]; [F64.zero]; [F64.zero]], g')).
Proof.
  destruct (spike_cost_constant_chain Demo.random_normal Demo.random_uniform
              Demo.math_exp tt tt tt (Demo.spike [F64.zero]) [F64.one]
              DemoFacts.uniform_range DemoFacts.exp_zero DemoFacts.exp_neg_infty
              DemoFacts.exp_nan [F64.zero]
              (DemoFacts.spike_finite [F64.zero])
              (DemoFacts.spike_infty [F64.zero]) 3 0)
    as [Hconst Hrun].
  split; [exact Hconst|].
  apply Hrun. simpl. lia.
Defined.

Lemma no_input_validation_witness :
  fst (demo_run Demo.flat [F64.zero; F64.zero] [F64.one] 2 0) = Raise IndexError /\
  (exists chain g',
     demo_run Demo.flat [F64.zero] [F64.one; Demo.mone] 2 0 = (Ok chain, g') /\
     length chain = 3) /\
  demo_run Demo.flat [F64.zero; F64.zero] [F64.one] 0 5 = (Ok [[F64.zero; F64.zero]], 5).
Proof.
  split; [|split].
  - apply (no_input_validation Demo.random_normal Demo.random_uniform Demo.math_exp
             tt tt tt Demo.flat [F64.one] DemoFacts.exp_defined
             [F64.zero; F64.zero] 2 0); [simpl; lia | lia].
  - apply (no_input_validation Demo.random_normal Demo.random_uniform Demo.math_exp
             tt tt tt Demo.flat [F64.one; Demo.mone] DemoFacts.exp_defined
             [F64.zero] 2 0); [simpl; lia | exact DemoFacts.flat_valid].
  - apply (no_input_validation Demo.random_normal Demo.random_uniform Demo.math_exp
             tt tt tt Demo.flat [F64.one] DemoFacts.exp_defined
             [F64.zero; F64.zero] 0 5). lia.
Defined.

Lemma seeded_runs_agree_witness :
  bind (seed Demo.random_seed 7) (fun _ => demo_run Demo.well [F64.one] [F64.one] 3) 0 =
  bind (seed Demo.random_seed 7) (fun _ => demo_run Demo.well [F64.one] [F64.one] 3) 5.
Proof.
  apply same_outcome_eq.
  apply (seeded_runs_agree eq Demo.random_normal Demo.random_normal
           Demo.random_uniform Demo.random_uniform
           Demo.random_seed Demo.random_seed Demo.math_exp tt tt tt Demo.well
           [F64.one]).
  - intros s g1 g2 ->. split; reflexivity.
  - intros g1 g2 ->. split; reflexivity.
  - reflexivity.
Defined.

(** C8 as stated fails: a negative scale and a [stepsize] longer than
    [initparams] both go through to a full chain, and the [IndexError] of a
    shorter [stepsize] comes only after the generator has been drawn from
    (its state has moved from 0 to 1). *)
Lemma bad_inputs_not_refused :
  (F64.ltb Demo.mone F64.zero = true /\
   demo_run Demo.flat [F64.zero] [Demo.mone] 1 0
     = (Ok [[F64.zero]; [F64.zero]], 1)) /\
  (length [F64.zero] <> length [F64.one; F64.one] /\
   demo_run Demo.flat [F64.zero] [F64.one; F64.one] 2 0
     = (Ok [[F64.zero]; [F64.one]; [F64.two]], 4)) /\
  (length [F64.zero; F64.zero] <> length [F64.one] /\
   demo_run Demo.flat [F64.zero; F64.zero] [F64.one] 2 0 = (Raise IndexError, 1)).
Proof.
  repeat split; try reflexivity; simpl; lia.
Qed.

(** *** The further facts at concrete inputs *)

Lemma chain_rows_length_witness :
  demo_run Demo.well [F64.one; F64.two] [F64.one; S754_nan] 3 0 =
    (Ok [[F64.one; F64.two];
         [S754_finite false 4503599627370496 (-51); F64.two];
         [S754_finite false 6755399441055744 (-51); F64.two];
         [S754_finite false 4503599627370496 (-50); F64.two]], 6) /\
  (forall k v,
     [[F64.one; F64.two];
      [S754_finite false 4503599627370496 (-51); F64.two];
      [S754_finite false 6755399441055744 (-51); F64.two];
      [S754_finite false 4503599627370496 (-50); F64.two]] !! k = Some v ->
     length v = length [F64.one; F64.two]).
Proof.
  split; [reflexivity|].
  apply (chain_rows_length Demo.random_normal Demo.random_uniform Demo.math_exp
           tt tt tt Demo.well [F64.one; S754_nan] [F64.one; F64.two] 3 0 _ 6).
  reflexivity.
Defined.

Lemma run_continues_witness :
  demo_run Demo.well [F64.one] [F64.one] (1 + 2) 0 =
    match demo_run Demo.well [F64.two] [F64.one] 2 2 with
    | (Ok more, g2) => (Ok ([[F64.one]; [F64.two]] ++ tail more), g2)
    | (Raise e, g2) => (Raise e, g2)
    end /\
  demo_run Demo.flat [F64.zero; F64.zero] [F64.one] (1 + 2) 0 = (Raise IndexError, 1).
Proof.
  split.
  - apply (proj1 (run_continues Demo.random_normal Demo.random_uniform Demo.math_exp
                    tt tt tt Demo.well [F64.one] [F64.one] 1 2 0
                    ltac:(lia) ltac:(lia))); reflexivity.
  - apply (proj2 (run_continues Demo.random_normal Demo.random_uniform Demo.math_exp
                    tt tt tt Demo.flat [F64.one] [F64.zero; F64.zero] 1 2 0
                    ltac:(lia) ltac:(lia))); reflexivity.
Defined.

Lemma surplus_scales_ignored_witness :
  demo_run Demo.well [F64.one] [F64.one; Demo.mone] 3 0 =
    demo_run Demo.well [F64.one] [F64.one] 3 0 /\
  demo_run Demo.well [F64.one] (take (length [F64.one]) [F64.one; Demo.mone]) 3 0 =
    demo_run Demo.well [F64.one] [F64.one; Demo.mone] 3 0.
Proof.
  apply (surplus_scales_ignored Demo.random_normal Demo.random_uniform Demo.math_exp
           tt tt tt Demo.well [F64.one; Demo.mone] [F64.one] [F64.one] 3 0).
  intros j Hj. destruct j; [reflexivity | simpl in Hj; lia].
Defined.

Lemma only_index_error_witness :
  F64.gtb (F64.div (F64.sub (Demo.well [F64.zero] tt tt tt)
                            (Demo.well (vadd [F64.zero] [F64.one]) tt tt tt))
                   F64.two) F64.zero = false /\
  (forall e g',
     demo_run Demo.well [F64.zero; F64.zero] [F64.one] 2 0 = (Raise e, g') ->
     e = IndexError).
Proof.
  destruct (only_index_error Demo.random_normal Demo.random_uniform Demo.math_exp
              tt tt tt Demo.well [F64.one] DemoFacts.exp_defined
              DemoFacts.well_valid) as [Harg Hexn].
  split.
  - apply Harg. reflexivity.
  - intros e g'. apply Hexn.
Defined.

Lemma undefined_cost_rejected_witness :
  accept Demo.random_uniform Demo.math_exp tt tt tt Demo2.undefined_off_origin
         [F64.zero] [F64.one] 0 = (Ok [F64.zero], 1) /\
  (forall k v,
     [[F64.zero]; [F64.zero]; [F64.zero]; [F64.zero]] !! k = Some v ->
     Demo2.undefined_off_origin v tt tt tt <> F64.infty /\
     Demo2.undefined_off_origin v tt tt tt <> S754_nan).
Proof.
  destruct (undefined_cost_rejected Demo.random_normal Demo.random_uniform
              Demo.math_exp tt tt tt Demo2.undefined_off_origin [F64.one]
              DemoFacts.uniform_range DemoFacts.exp_neg_infty DemoFacts.exp_nan)
    as [Hstep Hchain].
  split.
  - apply (Hstep [F64.zero] [F64.one] 0). right. reflexivity.
  - apply (Hchain [F64.zero] 3%Z 0 _ 6); [discriminate | discriminate | reflexivity].
Defined.

Lemma stuck_walker_witness :
  (forall dp gd,
     accept Demo.random_uniform Demo.math_exp tt tt tt (Demo2.hole [F64.zero])
            [F64.zero] dp gd = (Ok [F64.zero], snd (Demo.random_uniform gd))) /\
  (forall chain g',
     demo_run (Demo2.hole [F64.zero]) [F64.zero] [F64.one] 3 0 = (Ok chain, g') ->
     chain = [[F64.zero]; [F64.zero]; [F64.zero]; [F64.zero]]) /\
  (exists g',
     demo_run (Demo2.hole [F64.zero]) [F64.zero] [F64.one] 3 0 =
       (Ok [[F64.zero]; [F64.zero]; [F64.zero]; [F64.zero]], g')).
Proof.
  destruct (stuck_walker Demo.random_normal Demo.random_uniform Demo.math_exp
              tt tt tt (Demo2.hole [F64.zero]) [F64.one]
              DemoFacts.uniform_range DemoFacts.exp_neg_infty DemoFacts.exp_nan
              [F64.zero] 3 0 (or_introl eq_refl))
    as (Hstay & Hconst & Hrun).
  split; [exact Hstay|]. split; [exact Hconst|].
  apply Hrun. simpl. lia.
Defined.

Lemma nan_scale_pins_witness :
  demo_run Demo.well [F64.one; F64.two] (<[1:=F64.zero]> [F64.one; S754_nan]) 3 0 =
    demo_run Demo.well [F64.one; F64.two] [F64.one; S754_nan] 3 0 /\
  (forall chain g',
     demo_run Demo.well [F64.one; F64.two] [F64.one; S754_nan] 3 0 = (Ok chain, g') ->
     forall k v, chain !! k = Some v ->
       exists y, v !! 1 = Some y /\ pinned_value F64.two y).
Proof.
  apply (nan_scale_pins Demo.random_normal Demo.random_uniform Demo.math_exp
           tt tt tt Demo.well [F64.one; S754_nan] [F64.one; F64.two] 1 F64.two 3 0);
    reflexivity.
Defined.
